(** * Cache-key derivation of mosdns [pkg/utils/utils.go]

    A shallow embedding of the key-derivation entry points [GetMsgKey],
    [GetMsgKeyWithBytesSalt], [GetMsgKeyWithInt64Salt], of the unsafe
    conversion [BytesToStringUnsafe] and of [SplitString2].

    Go byte slices and strings are headers (data pointer, length) over a
    store of allocations, so that aliasing between a key and the buffer it
    was built from is visible.  Go functions run in a state-and-panic monad
    over that store and the buffer pool. *)

From Stdlib Require Import ZArith Lia.
From Stdlib Require Import Strings.Byte.
From stdpp Require Import base option list gmap relations.

#[local] Set Default Proof Using "Type".

(** ** Bytes and fixed-width integers *)

(** Go's conversion [byte(v)] of an unsigned integer: the low eight bits. *)
Definition byte_of_Z (z : Z) : byte :=
  default x00 (Byte.of_N (Z.to_N (z mod 256)%Z)).

Definition Z_of_byte (b : byte) : Z := Z.of_N (Byte.to_N b).

(** Go's conversion [uint64(v)] of an [int64]: the two's complement value. *)
Definition uint64 (z : Z) : Z := (z mod 2 ^ 64)%Z.

(** ** Memory: allocations, slices and strings *)

Definition block := nat.

(** A data pointer: an allocation and a byte offset into it. *)
Definition ptr : Type := block * nat.

(** A [[]byte] header; the capacity plays no part in the code below. *)
Record slice := Slice { sl_data : option ptr; sl_len : nat }.

(** A [string] header. *)
Record gostring := GoString { str_data : option ptr; str_len : nat }.

(** The literal [""]. *)
Definition empty_string : gostring := GoString None 0.

Definition nil_slice : slice := Slice None 0.

(** Go's [error] values: a base error of some library, or an error wrapped
    under a label as [fmt.Errorf("label: %w", err)] builds it. *)
Inductive error :=
  | errNew (msg : list byte)
  | errWrap (label : list byte) (cause : error).

(** A [*pool.Buffer]: the allocation the pool handed out. *)
Definition Buffer := block.

Record State := mkState {
  heap : gmap block (list byte);   (* content of every live allocation *)
  pool_out : list Buffer;          (* buffers checked out of the pool *)
  pool_free : list Buffer;         (* buffers back in the pool, to be reused *)
  released : list Buffer           (* every call of Release so far, in order *)
}.

(** The [n] bytes at [p], when they lie inside a live allocation. *)
Definition load (h : gmap block (list byte)) (p : option ptr) (n : nat)
  : option (list byte) :=
  match p with
  | None => if decide (n = 0) then Some [] else None
  | Some (b, off) =>
      match h !! b with
      | Some bs =>
          if decide (off + n ≤ length bs)
          then Some (take n (drop off bs)) else None
      | None => None
      end
  end.

Definition slice_bytes (st : State) (s : slice) : option (list byte) :=
  load (heap st) (sl_data s) (sl_len s).

Definition string_bytes (st : State) (s : gostring) : option (list byte) :=
  load (heap st) (str_data s) (str_len s).

(** ** Go functions: state and panics *)

Inductive outcome (A : Type) :=
  | Ret (a : A)
  | Panic.
Arguments Ret {A} a.
Arguments Panic {A}.

Definition M (A : Type) : Type := State → outcome A * State.

#[global] Instance M_ret : MRet M := λ A a st, (Ret a, st).

#[global] Instance M_bind : MBind M := λ A B k c st,
  match c st with
  | (Ret a, st1) => k a st1
  | (Panic, st1) => (Panic, st1)
  end.

Definition panic {A} : M A := λ st, (Panic, st).

(** [defer d; body]: the deferred call runs when [body] is left, by return
    or by panic. *)
Definition defer {A} (d : M unit) (body : M A) : M A :=
  λ st,
    let '(r, st1) := body st in
    match d st1 with
    | (Ret _, st2) => (r, st2)
    | (Panic, st2) => (Panic, st2)
    end.

(** A fresh allocation holding [bs], as [make] returns and as the
    serializer and the builder take for their own buffers. *)
Definition alloc (bs : list byte) : M block :=
  fun st =>
    let b := fresh (dom (heap st)) in
    (Ret b, mkState (<[b := bs]> (heap st)) (pool_out st) (pool_free st)
                    (released st)).

(** [s[i] = v]; an index out of range panics, and so does a store through
    a pointer to no allocation. *)
Definition index_set (s : slice) (i : nat) (v : byte) : M unit :=
  fun st =>
    if decide (i < sl_len s) then
      match sl_data s with
      | Some (b, off) =>
          match heap st !! b with
          | Some bs =>
              (Ret tt, mkState (<[b := <[(off + i) := v]> bs]> (heap st))
                               (pool_out st) (pool_free st) (released st))
          | None => (Panic, st)
          end
      | None => (Panic, st)
      end
    else (Panic, st).

(** Reading the bytes a slice points to, as [copy] and [append] do. *)
Definition deref (s : slice) : M (list byte) :=
  λ st,
    match slice_bytes st s with
    | Some bs => (Ret bs, st)
    | None => (Panic, st)
    end.

(** [BytesToStringUnsafe]: the slice header read as a string header, so the
    string shares the slice's memory. *)
Definition BytesToStringUnsafe (b : slice) : gostring :=
  GoString (sl_data b) (sl_len b).

(** ** [strings.Builder] *)

(** A builder owns one allocation [sb_blk] of [sb_cap] bytes, of which the
    first [sb_len] are written. *)
Record Builder := mkBuilder {
  sb_blk : option block; sb_len : nat; sb_cap : nat
}.

(** [new(strings.Builder)] *)
Definition new_Builder : Builder := mkBuilder None 0 0.

(** [p] written over [bs] from position [off] on. *)
Definition write_at (off : nat) (p bs : list byte) : list byte :=
  take off bs ++ p ++ drop (off + length p) bs.

(** The pointer to the first byte of an allocation. *)
Definition base (b : option block) : option ptr := (λ b, (b, 0)) <$> b.

Definition builder_content (sb : Builder) : M (list byte) :=
  deref (Slice (base (sb_blk sb)) (sb_len sb)).

(** [sb.Grow(n)]: room for [n] more bytes; a new zeroed allocation takes
    over the written bytes when the capacity is too small. *)
Definition Grow (sb : Builder) (n : nat) : M Builder :=
  if decide (sb_cap sb - sb_len sb < n) then
    old ← builder_content sb;
    let cap := (2 * sb_cap sb + n) in
    b ← alloc (old ++ replicate (cap - sb_len sb) x00);
    mret (mkBuilder (Some b) (sb_len sb) cap)
  else mret sb.

(** [sb.Write(p)], that is [append(sb.buf, p...)]: in place while the
    capacity suffices, into a new allocation otherwise. *)
Definition Write (sb : Builder) (p : list byte) : M Builder :=
  match sb_blk sb with
  | Some b =>
      if decide (sb_len sb + length p ≤ sb_cap sb) then
        λ st,
          match heap st !! b with
          | Some bs =>
              (Ret (mkBuilder (Some b) (sb_len sb + length p) (sb_cap sb)),
               mkState (<[b := write_at (sb_len sb) p bs]> (heap st))
                       (pool_out st) (pool_free st) (released st))
          | None => (Panic, st)
          end
      else
        old ← builder_content sb;
        b' ← alloc (old ++ p);
        mret (mkBuilder (Some b') (sb_len sb + length p) (sb_len sb + length p))
  | None =>
      if decide (length p = 0) then mret sb
      else
        b' ← alloc p;
        mret (mkBuilder (Some b') (length p) (length p))
  end.

(** [sb.String()]: the written bytes, shared with the builder. *)
Definition String (sb : Builder) : gostring :=
  GoString (base (sb_blk sb)) (sb_len sb).

(** ** The buffer pool *)

(** Modelled from the spec: the [Release] method of [pool.Buffer], whose
    source is not in this file.  A pooled buffer "must be returned (released)
    exactly once"; releasing moves it from the checked-out buffers back to
    the pool, where a later checkout may reuse it.  On a nil [*Buffer] the
    call has no buffer to read: it panics. *)
Definition Release (buf : option Buffer) : M unit :=
  match buf with
  | Some b =>
      λ st, (Ret tt, mkState (heap st) (filter (.≠ b) (pool_out st))
                             (b :: pool_free st) (released st ++ [b]))
  | None => panic
  end.

(** ** [encoding/binary] *)

(** [binary.BigEndian.PutUint64(b, v)] on the bytes of [b]: the eight
    stores [b[0] = byte(v >> 56)] ... [b[7] = byte(v)]. *)
Definition PutUint64 (b : list byte) (v : Z) : list byte :=
  <[7 := byte_of_Z v]>
  (<[6 := byte_of_Z (Z.shiftr v 8)]>
  (<[5 := byte_of_Z (Z.shiftr v 16)]>
  (<[4 := byte_of_Z (Z.shiftr v 24)]>
  (<[3 := byte_of_Z (Z.shiftr v 32)]>
  (<[2 := byte_of_Z (Z.shiftr v 40)]>
  (<[1 := byte_of_Z (Z.shiftr v 48)]>
  (<[0 := byte_of_Z (Z.shiftr v 56)]> b))))))).

(** ** The key-derivation entry points *)

Section KeyDerivation.

(** [*dns.Msg], and the two serializers the entry points call.  Both
    belong to other packages: [wire_format m] is what [m.Pack()] encodes
    [m] to, and [PackBuffer] is [pool.PackBuffer], which returns the wire
    bytes as a view of a pooled buffer. *)
Context {Msg : Type}.
Variable wire_format : Msg → error + list byte.
Variable PackBuffer : Msg → M (slice * option Buffer * option error).

(** [m.Pack()]: the wire bytes in a buffer of their own. *)
Definition Pack (m : Msg) : M (slice * option error) :=
  match wire_format m with
  | inl e => mret (nil_slice, Some e)
  | inr w => b ← alloc w; mret (Slice (Some (b, 0)) (length w), None)
  end.

(** The uint16 [salt] is a [Z] in [0, 65536). *)
Definition GetMsgKey (m : Msg) (salt : Z) : M (gostring * option error) :=
  '(wireMsg, err) ← Pack m;
  match err with
  | Some e => mret (empty_string, Some e)
  | None =>
      index_set wireMsg 0 (byte_of_Z (Z.shiftr salt 8));;
      index_set wireMsg 1 (byte_of_Z salt);;
      mret (BytesToStringUnsafe wireMsg, None)
  end.

(** [salt] is only read, by [sb.Write(salt)]: the model takes the bytes
    it holds. *)
Definition GetMsgKeyWithBytesSalt (m : Msg) (salt : list byte)
  : M (gostring * option error) :=
  '(wireMsg, buf, err) ← PackBuffer m;
  match err with
  | Some e => mret (empty_string, Some e)
  | None =>
      defer (Release buf)
        (index_set wireMsg 0 x00;;
         index_set wireMsg 1 x00;;
         sb ← Grow new_Builder (sl_len wireMsg + length salt);
         w ← deref wireMsg;
         sb ← Write sb w;
         sb ← Write sb salt;
         mret (String sb, None))
  end.

(** The int64 [salt] is a [Z] in [-2^63, 2^63). *)
Definition GetMsgKeyWithInt64Salt (m : Msg) (salt : Z)
  : M (gostring * option error) :=
  let b := replicate 8 x00 in
  let b := PutUint64 b (uint64 salt) in
  GetMsgKeyWithBytesSalt m b.

End KeyDerivation.

(** What a caller sees of a call: a panic, or the error and the bytes of
    the returned key as the memory holds them when the call is over. *)
Definition observe (r : outcome (gostring * option error) * State)
  : outcome (option (list byte) * option error) :=
  match r.1 with
  | Ret (k, e) => Ret (string_bytes r.2 k, e)
  | Panic => Panic
  end.

(** ** A pool and serializers to run the entry points on *)

Module pool.

(** Modelled from the spec: [pool.GetBuf], whose source is not in this
    file.  A pooled buffer is "borrowed from a reusable buffer pool": the
    checkout reuses the buffer released last when it is large enough, and
    takes a new zeroed allocation otherwise. *)
Definition GetBuf (n : nat) : M Buffer :=
  λ st,
    let reuse :=
      match pool_free st with
      | b :: rest =>
          match heap st !! b with
          | Some bs => if decide (n ≤ length bs) then Some (b, rest) else None
          | None => None
          end
      | [] => None
      end in
    match reuse with
    | Some (b, rest) =>
        (Ret b, mkState (heap st) (b :: pool_out st) rest (released st))
    | None =>
        let b := fresh (dom (heap st)) in
        (Ret b, mkState (<[b := replicate n x00]> (heap st))
                        (b :: pool_out st) (pool_free st) (released st))
    end.

(** [copy(buf, w)] at the start of the pooled buffer. *)
Definition store (buf : Buffer) (w : list byte) : M unit :=
  λ st,
    match heap st !! buf with
    | Some bs =>
        (Ret tt, mkState (<[buf := write_at 0 w bs]> (heap st))
                         (pool_out st) (pool_free st) (released st))
    | None => (Panic, st)
    end.

Section PackBuffer.
Context {Msg : Type}.
Variable wire_format : Msg → error + list byte.

(** Modelled from the spec: [pool.PackBuffer], whose source is not in
    this file: "SerializeWithPool(message) -> (bytes, releasable_buffer,
    error).  The returned bytes is a view into releasable_buffer."  The
    buffer is checked out before the message is encoded and is large
    enough for it; when the encoding fails the buffer goes back to the
    pool and only the error is returned. *)
Definition PackBuffer (m : Msg) : M (slice * option Buffer * option error) :=
  buf ← GetBuf (match wire_format m with inr w => length w | inl _ => 0 end);
  match wire_format m with
  | inl e => Release (Some buf);; mret (nil_slice, None, Some e)
  | inr w =>
      store buf w;;
      mret (Slice (Some (buf, 0)) (length w), Some buf, None)
  end.
End PackBuffer.

End pool.

(** Messages given by what the serializer makes of them. *)
Definition raw_msg : Type := error + list byte.
Definition raw_wire : raw_msg → error + list byte := id.

Definition empty_state : State := mkState ∅ [] [] [].

(** ** Vocabulary of the statements *)

Section Vocabulary.

Context {Msg : Type}.
Variable PackBuffer : Msg → M (slice * option Buffer * option error).

(** What the pooled serializer makes of [m] when called in [st]: an
    encoding error, or the wire bytes its view holds. *)
Definition pooled_wire (m : Msg) (st : State) : option (error + list byte) :=
  match PackBuffer m st with
  | (Ret (_, _, Some e), _) => Some (inl e)
  | (Ret (wire, Some _, None), st1) => inr <$> slice_bytes st1 wire
  | _ => None
  end.

(** Memory that belongs to the pool. *)
Definition pool_owned (st : State) (b : block) : Prop :=
  b ∈ pool_out st ∨ b ∈ pool_free st.

Definition pool_wf (st : State) : Prop :=
  ∀ b, pool_owned st b → b ∈ dom (heap st).

(** From [st] to [st'], every allocation outside the pool keeps its bytes
    and stays outside the pool. *)
Definition preserves_private (st st' : State) : Prop :=
  ∀ b, b ∈ dom (heap st) → ¬ pool_owned st b →
       heap st' !! b = heap st !! b ∧ ¬ pool_owned st' b.

(** What the entry points rely on: the pooled serializer works on pool
    memory and on allocations of its own only, and what it returns on
    success, buffer and view, is pool memory. *)
Record pool_contract : Prop := {
  pc_wf : ∀ m st r st',
    pool_wf st → PackBuffer m st = (r, st') → pool_wf st';
  pc_private : ∀ m st r st',
    pool_wf st → PackBuffer m st = (r, st') → preserves_private st st';
  pc_buffer : ∀ m st wire b st',
    pool_wf st → PackBuffer m st = (Ret (wire, Some b, None), st') →
    pool_owned st' b;
  pc_view : ∀ m st wire buf st' b off,
    pool_wf st → PackBuffer m st = (Ret (wire, buf, None), st') →
    sl_data wire = Some (b, off) → pool_owned st' b
}.

(** One more call of the byte-salted entry point, whatever its outcome. *)
Definition later_call (st st' : State) : Prop :=
  ∃ m salt r, GetMsgKeyWithBytesSalt PackBuffer m salt st = (r, st').

End Vocabulary.

(** Two wire encodings that differ at most in the transaction id. *)
Definition same_except_id (w1 w2 : list byte) : Prop :=
  length w1 = length w2 ∧ drop 2 w1 = drop 2 w2.

(** [a] is the beginning of [b], and [b] goes on. *)
Definition proper_prefix (a b : list byte) : Prop :=
  ∃ k, k ≠ [] ∧ b = a ++ k.

(** An error surfaced under a label: the cause wrapped by [fmt.Errorf]. *)
Definition labeled (cause e : error) : Prop :=
  ∃ label, e = errWrap label cause.

(** The big-endian encoding of [v] on [n] bytes, most significant byte
    first, and the number a byte sequence encodes. *)
Fixpoint big_endian (n : nat) (v : Z) : list byte :=
  match n with
  | 0 => []
  | S k => big_endian k (v / 256) ++ [byte_of_Z (v mod 256)]
  end.

Definition from_big_endian (bs : list byte) : Z :=
  foldl (λ acc b, (acc * 256 + Z_of_byte b)%Z) 0%Z bs.

(** ** [SplitString2] *)

#[global] Instance byte_eq_dec : EqDecision byte := Byte.byte_eq_dec.

(** [strings.HasPrefix(s, p)] on the bytes of the strings. *)
Fixpoint HasPrefix (s p : list byte) {struct p} : bool :=
  match p, s with
  | [], _ => true
  | _ :: _, [] => false
  | a :: p', b :: s' => if decide (a = b) then HasPrefix s' p' else false
  end.

(** [strings.Index(s, substr)]: "the index of the first instance of substr
    in s, or -1 if substr is not present in s". *)
Fixpoint Index (s substr : list byte) : Z :=
  if HasPrefix s substr then 0%Z
  else
    match s with
    | [] => (-1)%Z
    | _ :: s' =>
        let i := Index s' substr in
        if (i <? 0)%Z then (-1)%Z else (i + 1)%Z
    end.

(** The strings of [SplitString2] are never written through: the model
    takes them by their bytes.  The slice expressions [s[:i]] and
    [s[i+len(symbol):]] stay in range whenever [Index] finds [symbol]. *)
Definition SplitString2 (s symbol : list byte)
  : list byte * list byte * bool :=
  if decide (length symbol = 0) then ([], s, true)
  else
    let i := Index s symbol in
    if (0 <=? i)%Z then
      (take (Z.to_nat i) s, drop (Z.to_nat i + length symbol) s, true)
    else ([], [], false).

(** The wire bytes [w] after the stores [w[0] = hi] and [w[1] = lo]. *)
Definition set_id (hi lo : byte) (w : list byte) : list byte :=
  <[1 := lo]> (<[0 := hi]> w).

(** The spec's primitive [deriveKey]: what a caller sees of a key
    derivation, from what the serializer made of the message.  The id bytes
    become [hi] and [lo], [salt] is appended; fewer than two wire bytes make
    the id stores panic. *)
Definition deriveKey (hi lo : byte) (salt : list byte) (r : error + list byte)
  : outcome (option (list byte) * option error) :=
  match r with
  | inl e => Ret (Some [], Some e)
  | inr w =>
      if decide (2 ≤ length w) then Ret (Some (set_id hi lo w ++ salt), None)
      else Panic
  end.

(** ** Framing *)

(** [st] differs from [st0] only outside the allocations in [P], which are
    all still there, and the pool's lists are the same. *)
Definition kept (P : block → Prop) (st0 st : State) : Prop :=
  pool_out st = pool_out st0 ∧ pool_free st = pool_free st0 ∧
  (∀ b, b ∈ dom (heap st0) → b ∈ dom (heap st)) ∧
  ∀ b, P b → heap st !! b = heap st0 !! b.

(** [c] keeps [kept P st0], also when it panics, and a value it returns
    satisfies [Q]. *)
Definition steps {A} (P : block → Prop) (st0 : State) (c : M A)
    (Q : A → Prop) : Prop :=
  ∀ st r st', kept P st0 st → c st = (r, st') →
    kept P st0 st' ∧ ∀ a, r = Ret a → Q a.

Definition builder_private (P : block → Prop) (sb : Builder) : Prop :=
  ∀ b, sb_blk sb = Some b → ¬ P b.

(** An encoding error of the serializer. *)
Definition unencodable : error := errNew [x62; x61; x64].

(** ** [SplitSchemeAndHost], [RemoveComment] and [SplitLineReg] *)

(** The separator ["://"]. *)
Definition scheme_sep : list byte := ([":"; "/"; "/"])%byte.

Definition SplitSchemeAndHost (addr : list byte) : list byte * list byte :=
  match SplitString2 addr scheme_sep with
  | (protocol, host, true) => (protocol, host)
  | (_, _, false) => ([], addr)
  end.

Definition RemoveComment (s symbol : list byte) : list byte :=
  let i := Index s symbol in
  if (0 <=? i)%Z then take (Z.to_nat i) s else s.

(** [symbol] occurs in [s] at position [j]. *)
Definition occurs_at (symbol s : list byte) (j : nat) : Prop :=
  HasPrefix (drop j s) symbol = true.

(** The class [\s] of Go's regexp syntax, [[\t\n\f\r ]]; [\S] is every
    other byte, those of multi-byte and of invalid UTF-8 sequences among
    them. *)
Definition is_space (b : byte) : bool :=
  bool_decide (b ∈ [x09; x0a; x0c; x0d; x20]).

(** The scan of [charBlockExpr.FindAllString(s, -1)] for [charBlockExpr =
    \S+]: a match starts at the first byte outside [\s], takes all such
    bytes that follow, and the search goes on behind it.  [word] holds the
    bytes of the match under way. *)
Fixpoint find_all_words (word s : list byte) : list (list byte) :=
  match s with
  | [] => match word with [] => [] | _ => [word] end
  | b :: rest =>
      if is_space b then
        match word with
        | [] => find_all_words [] rest
        | _ => word :: find_all_words [] rest
        end
      else find_all_words (word ++ [b]) rest
  end.

(** A nil result and an empty one are both the empty list. *)
Definition SplitLineReg (s : list byte) : list (list byte) :=
  find_all_words [] s.

(** ** [GetIPFromAddr] and [GetAddrFromAddr] *)

(** [net.IP] is a byte slice; nil and empty are both the empty list. *)
Definition net_IP : Type := list byte.

Record TCPAddr := mkTCPAddr {
  tcp_IP : net_IP; tcp_Port : Z; tcp_Zone : list byte
}.
Record UDPAddr := mkUDPAddr {
  udp_IP : net_IP; udp_Port : Z; udp_Zone : list byte
}.
Record IPNet := mkIPNet { ipnet_IP : net_IP; ipnet_Mask : list byte }.
Record IPAddr := mkIPAddr { ipaddr_IP : net_IP; ipaddr_Zone : list byte }.

(** A [net.Addr] interface value by its dynamic type: a pointer, possibly
    nil, to one of the four structs the switch knows; a value of another
    type; or the nil interface. *)
Inductive net_Addr :=
  | addrTCP (v : option TCPAddr)
  | addrUDP (v : option UDPAddr)
  | addrIPNet (v : option IPNet)
  | addrIPAddr (v : option IPAddr)
  | addrOther
  | addrNil.

(** [v.IP] through a pointer: a nil pointer panics. *)
Definition field {A B} (f : A → B) (v : option A) : outcome B :=
  match v with
  | Some a => Ret (f a)
  | None => Panic
  end.

Definition GetIPFromAddr (addr : net_Addr) : outcome net_IP :=
  match addr with
  | addrTCP v => field tcp_IP v
  | addrUDP v => field udp_IP v
  | addrIPNet v => field ipnet_IP v
  | addrIPAddr v => field ipaddr_IP v
  | addrOther | addrNil => Ret []
  end.

(** [netip.Addr]: the zero value, or the 4 or 16 bytes of an address. *)
Inductive netip_Addr :=
  | Addr_zero
  | Addr_4 (a : list byte)
  | Addr_16 (a : list byte).

(** [netip.AddrFromSlice]: "parses the 4- or 16-byte byte slice as an IPv4
    or IPv6 address"; any other length gives the zero [Addr] and false. *)
Definition AddrFromSlice (s : list byte) : netip_Addr * bool :=
  if decide (length s = 4) then (Addr_4 s, true)
  else if decide (length s = 16) then (Addr_16 s, true)
  else (Addr_zero, false).

(** [a.IsValid()] and [a.AsSlice()]. *)
Definition IsValid (a : netip_Addr) : bool :=
  match a with Addr_zero => false | _ => true end.

Definition AsSlice (a : netip_Addr) : list byte :=
  match a with Addr_zero => [] | Addr_4 s | Addr_16 s => s end.

Definition GetAddrFromAddr (addr : net_Addr) : outcome netip_Addr :=
  match GetIPFromAddr addr with
  | Ret ip => let '(a, _) := AddrFromSlice ip in Ret a
  | Panic => Panic
  end.

(** ** [LoadCertPool] *)

Section LoadCertPool.

(** [*x509.CertPool] with [x509.NewCertPool] and [AppendCertsFromPEM],
    which returns the pool it has extended and whether a certificate was
    parsed; and the files [os.ReadFile] finds during the call. *)
Variable CertPool : Type.
Variable NewCertPool : CertPool.
Variable AppendCertsFromPEM : CertPool → list byte → CertPool * bool.
Variable ReadFile : list byte → error + list byte.

(** [fmt.Errorf("no certificate was successfully parsed in %s", cert)] *)
Definition no_certificate_error (cert : list byte) : error :=
  errNew (["n"; "o"; " "; "c"; "e"; "r"; "t"; "i"; "f"; "i"; "c"; "a"; "t";
           "e"; " "; "w"; "a"; "s"; " "; "s"; "u"; "c"; "c"; "e"; "s"; "s";
           "f"; "u"; "l"; "l"; "y"; " "; "p"; "a"; "r"; "s"; "e"; "d"; " ";
           "i"; "n"; " "]%byte ++ cert).

(** The loop over [certs] from the pool [rootCAs] on; [read] lists the
    files read so far.  The result is the pool, or nil with the error, and
    the files read. *)
Fixpoint load_certs (certs : list (list byte)) (rootCAs : CertPool)
    (read : list (list byte))
  : (option CertPool * option error) * list (list byte) :=
  match certs with
  | [] => ((Some rootCAs, None), read)
  | cert :: rest =>
      match ReadFile cert with
      | inl err => ((None, Some err), read ++ [cert])
      | inr b =>
          let '(rootCAs', ok) := AppendCertsFromPEM rootCAs b in
          if ok then load_certs rest rootCAs' (read ++ [cert])
          else ((None, Some (no_certificate_error cert)), read ++ [cert])
      end
  end.

Definition LoadCertPool (certs : list (list byte))
  : (option CertPool * option error) * list (list byte) :=
  load_certs certs NewCertPool [].

(** The pool after the files [certs], when each is read and parsed. *)
Fixpoint pool_of (certs : list (list byte)) (rootCAs : CertPool)
  : option CertPool :=
  match certs with
  | [] => Some rootCAs
  | cert :: rest =>
      match ReadFile cert with
      | inr b =>
          let '(rootCAs', ok) := AppendCertsFromPEM rootCAs b in
          if ok then pool_of rest rootCAs' else None
      | inl _ => None
      end
  end.

(** [cert] cannot be added to the pool [rootCAs]: it cannot be read, or no
    certificate is parsed in it. *)
Definition cert_fails (rootCAs : CertPool) (cert : list byte) (err : error)
  : Prop :=
  ReadFile cert = inl err ∨
  ∃ b, ReadFile cert = inr b ∧ (AppendCertsFromPEM rootCAs b).2 = false ∧
       err = no_certificate_error cert.

End LoadCertPool.

Arguments load_certs {CertPool} AppendCertsFromPEM ReadFile certs rootCAs read.
Arguments pool_of {CertPool} AppendCertsFromPEM ReadFile certs rootCAs.
Arguments LoadCertPool {CertPool} NewCertPool AppendCertsFromPEM ReadFile certs.
Arguments cert_fails {CertPool} AppendCertsFromPEM ReadFile rootCAs cert err.

(** A pool that is the list of the PEM blocks added, where an empty file
    holds no certificate, and a directory of two files. *)
Definition blocks_append (rootCAs : list (list byte)) (b : list byte)
  : list (list byte) * bool :=
  if decide (b = []) then (rootCAs, false) else (rootCAs ++ [b], true).

Definition two_files (path : list byte) : error + list byte :=
  if decide (path = ["a"]%byte) then inr ["A"]%byte
  else if decide (path = ["e"]%byte) then inr []
  else inl (errNew (["n"; "o"; " "; "f"; "i"; "l"; "e"])%byte).

(** ** Words and blanks *)

Definition no_space (w : list byte) : Prop :=
  Forall (λ b, is_space b = false) w.
Definition all_space (w : list byte) : Prop :=
  Forall (λ b, is_space b = true) w.

(** ** Quiet steps *)

(** [c] leaves the pool's lists and the log of releases as they are. *)
Definition quiet {A} (c : M A) : Prop :=
  ∀ st r st', c st = (r, st') →
    pool_out st' = pool_out st ∧ pool_free st' = pool_free st ∧
    released st' = released st.

(** * Properties *)

(** ** Bytes *)

Lemma Z_of_byte_of_Z (z : Z) : Z_of_byte (byte_of_Z z) = (z mod 256)%Z.
Proof.
  unfold Z_of_byte, byte_of_Z.
  assert (Hr : (0 ≤ z mod 256 < 256)%Z) by (apply Z.mod_pos_bound; lia).
  destruct (Byte.of_N (Z.to_N (z mod 256))) as [b|] eqn:E.
  - apply Byte.to_of_N in E. simpl. rewrite E. lia.
  - apply Byte.of_N_None_iff in E. lia.
Qed.

Lemma byte_of_Z_mod (z : Z) : byte_of_Z (z mod 256) = byte_of_Z z.
Proof. unfold byte_of_Z. rewrite Z.mod_mod; [done | lia]. Qed.

(** ** Memory *)

Lemma set_id_length hi lo w : length (set_id hi lo w) = length w.
Proof. unfold set_id. by rewrite !length_insert. Qed.

Lemma set_id_cons hi lo w :
  2 ≤ length w → set_id hi lo w = hi :: lo :: drop 2 w.
Proof. destruct w as [|a [|b w]]; simpl; intros; [lia | lia | done]. Qed.

Lemma load_insert_eq h b bs off n :
  off + n ≤ length bs →
  load (<[b := bs]> h) (Some (b, off)) n = Some (take n (drop off bs)).
Proof. intros H. simpl. rewrite lookup_insert_eq. by rewrite decide_True. Qed.

Lemma load_insert_ne h b bs b' off n :
  b ≠ b' →
  load (<[b := bs]> h) (Some (b', off)) n = load h (Some (b', off)) n.
Proof. intros H. simpl. by rewrite lookup_insert_ne. Qed.

Lemma load_Some h b off n bs :
  load h (Some (b, off)) n = Some bs →
  ∃ blk,
    h !! b = Some blk ∧ off + n ≤ length blk ∧ bs = take n (drop off blk).
Proof.
  simpl. destruct (h !! b) as [blk|]; [|done].
  case_decide; [|done]. intros [= <-]. eauto.
Qed.

Lemma load_length h p n bs : load h p n = Some bs → length bs = n.
Proof.
  destruct p as [[b off]|].
  - intros (blk & _ & Hle & ->)%load_Some.
    rewrite length_take, length_drop. lia.
  - simpl. case_decide; [|done]. intros [= <-]. done.
Qed.

Lemma view_insert (blk : list byte) off n i v :
  i < n →
  take n (drop off (<[off + i := v]> blk)) = <[i := v]> (take n (drop off blk)).
Proof.
  intros Hi. rewrite drop_insert_ge by lia.
  replace (off + i - off) with i by lia.
  by rewrite take_insert_lt.
Qed.

Lemma index_set_run s i v st b off bs :
  sl_data s = Some (b, off) → heap st !! b = Some bs → i < sl_len s →
  index_set s i v st =
    (Ret (), mkState (<[b := <[off + i := v]> bs]> (heap st))
                     (pool_out st) (pool_free st) (released st)).
Proof.
  intros Hd Hb Hi. unfold index_set.
  rewrite decide_True by done. by rewrite Hd, Hb.
Qed.

Lemma index_set_oob s i v st :
  sl_len s ≤ i → index_set s i v st = (Panic, st).
Proof. intros Hi. unfold index_set. rewrite decide_False by lia. done. Qed.

Lemma deref_run s st bs :
  slice_bytes st s = Some bs → deref s st = (Ret bs, st).
Proof. intros H. unfold deref. by rewrite H. Qed.

Lemma Grow_new_run n st :
  0 < n →
  let b := fresh (dom (heap st)) in
  Grow new_Builder n st =
    (Ret (mkBuilder (Some b) 0 n),
     mkState (<[b := replicate n x00]> (heap st))
             (pool_out st) (pool_free st) (released st)).
Proof.
  intros Hn b. unfold Grow. cbn [new_Builder sb_cap sb_len].
  rewrite decide_True by lia.
  unfold mbind, M_bind, builder_content, deref, slice_bytes, alloc. cbn.
  by rewrite Nat.sub_0_r.
Qed.

Lemma Write_run sb p st b bs :
  sb_blk sb = Some b → heap st !! b = Some bs →
  sb_len sb + length p ≤ sb_cap sb →
  Write sb p st =
    (Ret (mkBuilder (Some b) (sb_len sb + length p) (sb_cap sb)),
     mkState (<[b := write_at (sb_len sb) p bs]> (heap st))
             (pool_out st) (pool_free st) (released st)).
Proof.
  intros Hb Hh Hc. unfold Write. rewrite Hb.
  rewrite decide_True by done. by rewrite Hh.
Qed.

(** ** Running the entry points *)

Section Run.
Context {Msg : Type}.
Variable wire_format : Msg → error + list byte.
Variable PackBuffer : Msg → M (slice * option Buffer * option error).

Lemma GetMsgKey_run m salt st w :
  wire_format m = inr w → 2 ≤ length w →
  let b := fresh (dom (heap st)) in
  GetMsgKey wire_format m salt st =
    (Ret (GoString (Some (b, 0)) (length w), None),
     mkState (<[b := set_id (byte_of_Z (Z.shiftr salt 8)) (byte_of_Z salt) w]>
                (heap st))
             (pool_out st) (pool_free st) (released st)).
Proof.
  intros Hw Hlen b.
  unfold GetMsgKey, Pack, mbind, M_bind, mret, M_ret, alloc, index_set.
  rewrite Hw. cbn.
  rewrite decide_True by lia. rewrite lookup_insert_eq. cbn.
  rewrite decide_True by lia. rewrite lookup_insert_eq. cbn.
  rewrite !insert_insert_eq. done.
Qed.

Lemma builder_fill (w salt : list byte) n :
  length w = n →
  write_at (length w) salt
    (write_at 0 w (replicate (n + length salt) x00)) = w ++ salt.
Proof.
  intros <-. unfold write_at. rewrite take_0. cbn [app Nat.add].
  rewrite take_app_length. rewrite drop_ge; [by rewrite app_nil_r|].
  rewrite length_app, length_drop, length_replicate. lia.
Qed.

Lemma GetMsgKeyWithBytesSalt_run m salt st wire buf st1 wb off blk :
  PackBuffer m st = (Ret (wire, Some buf, None), st1) →
  sl_data wire = Some (wb, off) →
  heap st1 !! wb = Some blk →
  off + sl_len wire ≤ length blk →
  2 ≤ sl_len wire →
  let blk' := <[off + 1 := x00]> (<[off + 0 := x00]> blk) in
  let h1 := <[wb := blk']> (heap st1) in
  let kb := fresh (dom h1) in
  GetMsgKeyWithBytesSalt PackBuffer m salt st =
    (Ret (GoString (Some (kb, 0)) (sl_len wire + length salt), None),
     mkState (<[kb := take (sl_len wire) (drop off blk') ++ salt]> h1)
             (filter (.≠ buf) (pool_out st1)) (buf :: pool_free st1)
             (released st1 ++ [buf])).
Proof.
  intros HP Hd Hb Hle Hlen blk' h1 kb.
  unfold GetMsgKeyWithBytesSalt, mbind, M_bind. rewrite HP. cbn [fst snd].
  unfold defer, Release.
  erewrite index_set_run by (done || lia).
  erewrite index_set_run; [|done|cbn; apply lookup_insert_eq|lia].
  cbn [heap pool_out pool_free released]. rewrite insert_insert_eq.
  fold blk' h1.
  rewrite Grow_new_run by lia.
  cbn [heap pool_out pool_free released]. fold kb.
  assert (Hkb : kb ≠ wb).
  { intros E. pose proof (is_fresh (dom h1)) as Hf. fold kb in Hf.
    apply Hf. rewrite E. unfold h1. apply elem_of_dom.
  rewrite lookup_insert_eq. eauto. }
  assert (Hlen' : length blk' = length blk).
  { unfold blk'. by rewrite !length_insert. }
  erewrite (deref_run _ _ (take (sl_len wire) (drop off blk'))).
  2:{ unfold slice_bytes. rewrite Hd. cbn [heap].
      rewrite load_insert_ne by done. unfold h1.
      apply load_insert_eq. lia. }
  set (w' := take (sl_len wire) (drop off blk')).
  assert (Hw' : length w' = sl_len wire).
  { unfold w'. rewrite length_take, length_drop. lia. }
  erewrite Write_run; [|done|cbn; apply lookup_insert_eq|cbn; lia].
  cbn [heap pool_out pool_free released sb_len sb_cap Nat.add].
  erewrite Write_run; [|done|cbn; apply lookup_insert_eq|cbn; lia].
  cbn [heap pool_out pool_free released sb_len sb_cap Nat.add String sb_blk
       base fmap option_fmap option_map mret M_ret].
  rewrite !insert_insert_eq, builder_fill by done. by rewrite Hw'.
Qed.
End Run.

(** ** What the entry points return *)

Section Observations.
Context {Msg : Type}.
Variable wire_format : Msg → error + list byte.
Variable PackBuffer : Msg → M (slice * option Buffer * option error).

Lemma set_id_view (blk : list byte) off n hi lo :
  2 ≤ n →
  take n (drop off (<[off + 1 := lo]> (<[off + 0 := hi]> blk))) =
  set_id hi lo (take n (drop off blk)).
Proof. intros Hn. unfold set_id. by rewrite !view_insert by lia. Qed.

Lemma GetMsgKey_key m salt st w :
  wire_format m = inr w → 2 ≤ length w →
  observe (GetMsgKey wire_format m salt st) =
    Ret (Some (set_id (byte_of_Z (Z.shiftr salt 8)) (byte_of_Z salt) w), None).
Proof.
  intros Hw Hlen. rewrite (GetMsgKey_run wire_format m salt st w) by done.
  unfold observe, string_bytes. cbn [fst snd heap str_data str_len].
  rewrite load_insert_eq by (rewrite set_id_length; lia).
  rewrite drop_0, take_ge by (rewrite set_id_length; lia). done.
Qed.

Lemma GetMsgKey_short m salt st w :
  wire_format m = inr w → length w < 2 →
  observe (GetMsgKey wire_format m salt st) = Panic.
Proof.
  intros Hw Hlen.
  unfold observe, GetMsgKey, Pack, mbind, M_bind, mret, M_ret, alloc.
  rewrite Hw. cbn.
  destruct (decide (0 < length w)) as [H0|H0].
  - erewrite index_set_run; [|done|cbn; apply lookup_insert_eq|done].
    rewrite index_set_oob by (cbn; lia). done.
  - rewrite index_set_oob by (cbn; lia). done.
Qed.

Lemma GetMsgKey_error m salt st e :
  wire_format m = inl e →
  GetMsgKey wire_format m salt st = (Ret (empty_string, Some e), st).
Proof.
  intros Hw. unfold GetMsgKey, Pack, mbind, M_bind. by rewrite Hw.
Qed.

Lemma pooled_wire_inr m st w :
  pooled_wire PackBuffer m st = Some (inr w) →
  ∃ wire buf st1,
    PackBuffer m st = (Ret (wire, Some buf, None), st1) ∧
    slice_bytes st1 wire = Some w.
Proof.
  unfold pooled_wire.
  destruct (PackBuffer m st) as [[[[wire [buf|]] [e|]]|] st1]; try done.
  destruct (slice_bytes st1 wire) as [w'|] eqn:E; [|done].
  intros [= <-]. eauto.
Qed.

Lemma pooled_wire_inl m st e :
  pooled_wire PackBuffer m st = Some (inl e) →
  ∃ wire buf st1, PackBuffer m st = (Ret (wire, buf, Some e), st1).
Proof.
  unfold pooled_wire.
  destruct (PackBuffer m st) as [[[[wire [buf|]] [e'|]]|] st1]; try done.
  - intros [= <-]. eauto.
  - destruct (slice_bytes st1 wire); done.
  - intros [= <-]. eauto.
Qed.

Lemma GetMsgKeyWithBytesSalt_key m salt st w :
  pooled_wire PackBuffer m st = Some (inr w) → 2 ≤ length w →
  observe (GetMsgKeyWithBytesSalt PackBuffer m salt st) =
    Ret (Some (set_id x00 x00 w ++ salt), None).
Proof.
  intros (wire & buf & st1 & HP & Hs)%pooled_wire_inr Hlen.
  pose proof (load_length _ _ _ _ Hs) as Hl.
  unfold slice_bytes in Hs.
  destruct (sl_data wire) as [[wb off]|] eqn:Hd.
  2:{ simpl in Hs. case_decide; [lia|done]. }
  apply load_Some in Hs as (blk & Hb & Hle & ->).
  rewrite (GetMsgKeyWithBytesSalt_run PackBuffer m salt st wire buf st1 wb off
             blk HP Hd Hb Hle) by lia.
  unfold observe, string_bytes. cbn [fst snd heap str_data str_len].
  rewrite set_id_view by lia.
  rewrite load_insert_eq by (rewrite length_app, set_id_length; lia).
  rewrite drop_0, take_ge by (rewrite length_app, set_id_length; lia). done.
Qed.

Lemma GetMsgKeyWithBytesSalt_short m salt st w :
  pooled_wire PackBuffer m st = Some (inr w) → length w < 2 →
  observe (GetMsgKeyWithBytesSalt PackBuffer m salt st) = Panic.
Proof.
  intros (wire & buf & st1 & HP & Hs)%pooled_wire_inr Hlen.
  pose proof (load_length _ _ _ _ Hs) as Hl.
  unfold observe, GetMsgKeyWithBytesSalt, mbind, M_bind. rewrite HP.
  cbn [fst snd]. unfold defer, Release.
  destruct (decide (0 < sl_len wire)) as [H0|H0].
  - unfold slice_bytes in Hs.
    destruct (sl_data wire) as [[wb off]|] eqn:Hd.
    2:{ simpl in Hs. case_decide; [lia|done]. }
    apply load_Some in Hs as (blk & Hb & Hle & ->).
    erewrite index_set_run by done.
    rewrite index_set_oob by lia. done.
  - rewrite index_set_oob by lia. done.
Qed.

Lemma GetMsgKeyWithBytesSalt_error m salt st wire buf e st1 :
  PackBuffer m st = (Ret (wire, buf, Some e), st1) →
  GetMsgKeyWithBytesSalt PackBuffer m salt st =
    (Ret (empty_string, Some e), st1).
Proof.
  intros HP. unfold GetMsgKeyWithBytesSalt, mbind, M_bind. by rewrite HP.
Qed.


Lemma GetMsgKey_deriveKey m salt st :
  observe (GetMsgKey wire_format m salt st) =
  deriveKey (byte_of_Z (Z.shiftr salt 8)) (byte_of_Z salt) [] (wire_format m).
Proof.
  unfold deriveKey. destruct (wire_format m) as [e|w] eqn:Hw.
  - by rewrite (GetMsgKey_error m salt st e).
  - case_decide.
    + rewrite (GetMsgKey_key m salt st w) by done. by rewrite app_nil_r.
    + apply (GetMsgKey_short m salt st w); [done | lia].
Qed.

Lemma GetMsgKeyWithBytesSalt_deriveKey m salt st r :
  pooled_wire PackBuffer m st = Some r →
  observe (GetMsgKeyWithBytesSalt PackBuffer m salt st) =
  deriveKey x00 x00 salt r.
Proof.
  intros Hr. unfold deriveKey. destruct r as [e|w].
  - apply pooled_wire_inl in Hr as (wire & buf & st1 & HP).
    by rewrite (GetMsgKeyWithBytesSalt_error m salt st wire buf e st1).
  - case_decide.
    + by apply GetMsgKeyWithBytesSalt_key.
    + apply (GetMsgKeyWithBytesSalt_short m salt st w); [done | lia].
Qed.

Lemma same_except_id_set_id hi lo w1 w2 :
  same_except_id w1 w2 → set_id hi lo w1 = set_id hi lo w2.
Proof.
  intros [Hlen Hd]. unfold set_id.
  destruct w1 as [|a1 [|b1 w1]], w2 as [|a2 [|b2 w2]]; simpl in *;
    rewrite ?drop_0 in Hd; try done; congruence.
Qed.

Lemma deriveKey_same_except_id hi lo salt w1 w2 :
  same_except_id w1 w2 →
  deriveKey hi lo salt (inr w1) = deriveKey hi lo salt (inr w2).
Proof.
  intros H. unfold deriveKey.
  rewrite (same_except_id_set_id hi lo w1 w2 H). destruct H as [-> _]. done.
Qed.

(** C1 (transaction-id independence): two messages whose wire bytes have
    the same length and agree from the third byte on yield, for one salt, the
    same outcome and the same key bytes, through [GetMsgKey] and through
    [GetMsgKeyWithBytesSalt], whatever the memory each call starts from. *)
Theorem transaction_id_independence
    m1 m2 w1 w2 v1 v2 salt16 salt st1 st2 st1' st2' :
  wire_format m1 = inr w1 → wire_format m2 = inr w2 →
  same_except_id w1 w2 →
  pooled_wire PackBuffer m1 st1' = Some (inr v1) →
  pooled_wire PackBuffer m2 st2' = Some (inr v2) →
  same_except_id v1 v2 →
  observe (GetMsgKey wire_format m1 salt16 st1) =
    observe (GetMsgKey wire_format m2 salt16 st2) ∧
  observe (GetMsgKeyWithBytesSalt PackBuffer m1 salt st1') =
    observe (GetMsgKeyWithBytesSalt PackBuffer m2 salt st2').
Proof.
  intros H1 H2 Hw P1 P2 Hv. split.
  - rewrite !GetMsgKey_deriveKey, H1, H2.
    by apply deriveKey_same_except_id.
  - rewrite (GetMsgKeyWithBytesSalt_deriveKey m1 salt st1' _ P1).
    rewrite (GetMsgKeyWithBytesSalt_deriveKey m2 salt st2' _ P2).
    by apply deriveKey_same_except_id.
Qed.


(** C7 (determinism): two calls of one entry point on the same message and
    salt, each with a serialization of its own that yields the same result
    [r], return the same error and the same key bytes, whatever the memory
    each call starts from. *)
Theorem key_derivation_deterministic m salt16 salt salt64 st1 st2 r :
  pooled_wire PackBuffer m st1 = Some r →
  pooled_wire PackBuffer m st2 = Some r →
  observe (GetMsgKey wire_format m salt16 st1) =
    observe (GetMsgKey wire_format m salt16 st2) ∧
  observe (GetMsgKeyWithBytesSalt PackBuffer m salt st1) =
    observe (GetMsgKeyWithBytesSalt PackBuffer m salt st2) ∧
  observe (GetMsgKeyWithInt64Salt PackBuffer m salt64 st1) =
    observe (GetMsgKeyWithInt64Salt PackBuffer m salt64 st2).
Proof.
  intros P1 P2. unfold GetMsgKeyWithInt64Salt. split; [|split].
  - by rewrite !GetMsgKey_deriveKey.
  - by rewrite (GetMsgKeyWithBytesSalt_deriveKey m salt st1 r),
      (GetMsgKeyWithBytesSalt_deriveKey m salt st2 r).
  - by rewrite (GetMsgKeyWithBytesSalt_deriveKey m _ st1 r),
      (GetMsgKeyWithBytesSalt_deriveKey m _ st2 r).
Qed.

(** C3 (length and content scenario): when the wire bytes are
    [12 34 00 00] and the salt is [ff], [GetMsgKeyWithBytesSalt] returns no
    error and the five key bytes [00 00 00 00 ff]. *)
Theorem minimal_message_scenario m st :
  pooled_wire PackBuffer m st = Some (inr [x12; x34; x00; x00]) →
  observe (GetMsgKeyWithBytesSalt PackBuffer m [xff] st) =
    Ret (Some [x00; x00; x00; x00; xff], None).
Proof.
  intros P. by rewrite (GetMsgKeyWithBytesSalt_deriveKey m _ st _ P).
Qed.

(** C4: when the serialization succeeds with at least two wire bytes,
    [GetMsgKey] returns no error and a key made of the bytes [salt >> 8] and
    [salt & 0xff] followed by the wire bytes from the third on; nothing is
    appended, and the key is as long as the wire encoding. *)
Theorem GetMsgKey_content m salt st w :
  wire_format m = inr w → 2 ≤ length w → (0 ≤ salt < 65536)%Z →
  let key := byte_of_Z (Z.shiftr salt 8) :: byte_of_Z (Z.land salt 255)
               :: drop 2 w in
  observe (GetMsgKey wire_format m salt st) = Ret (Some key, None) ∧
  length key = length w ∧
  Z_of_byte <$> take 2 key = [Z.shiftr salt 8; Z.land salt 255] ∧
  ∃ k st', GetMsgKey wire_format m salt st = (Ret (k, None), st') ∧
           str_len k = length w.
Proof.
  intros Hw Hlen Hs key.
  assert (Hlo : Z.land salt 255 = (salt mod 256)%Z).
  { change 255%Z with (Z.ones 8). rewrite Z.land_ones by lia. done. }
  assert (Hhi : (0 ≤ Z.shiftr salt 8 < 256)%Z).
  { rewrite Z.shiftr_div_pow2 by lia. change (2 ^ 8)%Z with 256%Z.
    split; [apply Z.div_pos; lia | apply Z.div_lt_upper_bound; lia]. }
  split; [|split; [|split]].
  - rewrite GetMsgKey_deriveKey, Hw. unfold deriveKey.
    rewrite decide_True by done. rewrite app_nil_r, set_id_cons by done.
    unfold key. by rewrite Hlo, byte_of_Z_mod.
  - unfold key. cbn [length]. rewrite length_drop. lia.
  - unfold key. cbn. rewrite !Z_of_byte_of_Z.
    rewrite (Z.mod_small (Z.shiftr salt 8)) by done.
    rewrite Hlo at 1. rewrite Z.mod_mod by lia. by rewrite Hlo.
  - rewrite (GetMsgKey_run wire_format m salt st w) by done. eauto.
Qed.

(** C9: when both serializers yield the same wire bytes, at least two,
    [GetMsgKey] with salt 0 and [GetMsgKeyWithBytesSalt] with the empty salt
    return the same key bytes: the wire bytes with the first two zeroed. *)
Theorem zero_salts_agree m w st1 st2 :
  wire_format m = inr w →
  pooled_wire PackBuffer m st2 = Some (inr w) →
  2 ≤ length w →
  observe (GetMsgKey wire_format m 0 st1) =
    Ret (Some (x00 :: x00 :: drop 2 w), None) ∧
  observe (GetMsgKeyWithBytesSalt PackBuffer m [] st2) =
    Ret (Some (x00 :: x00 :: drop 2 w), None).
Proof.
  intros Hw P Hlen. split.
  - rewrite GetMsgKey_deriveKey, Hw. unfold deriveKey.
    rewrite decide_True by done. by rewrite app_nil_r, set_id_cons.
  - rewrite (GetMsgKeyWithBytesSalt_deriveKey m _ st2 _ P). unfold deriveKey.
    rewrite decide_True by done. by rewrite app_nil_r, set_id_cons.
Qed.


Lemma PutUint64_big_endian v :
  PutUint64 (replicate 8 x00) v = big_endian 8 v.
Proof.
  unfold PutUint64. cbn [replicate big_endian app].
  rewrite !byte_of_Z_mod.
  rewrite !Z.shiftr_div_pow2 by lia.
  rewrite !Z.div_div by lia. reflexivity.
Qed.

Lemma from_big_endian_snoc bs b :
  from_big_endian (bs ++ [b]) = (from_big_endian bs * 256 + Z_of_byte b)%Z.
Proof. unfold from_big_endian. by rewrite foldl_app. Qed.

Lemma big_endian_length n v : length (big_endian n v) = n.
Proof.
  revert v. induction n as [|n IH]; intros v; [done|].
  cbn [big_endian]. rewrite length_app, IH. cbn. lia.
Qed.

Lemma from_big_endian_big_endian n v :
  (0 ≤ v < 256 ^ Z.of_nat n)%Z → from_big_endian (big_endian n v) = v.
Proof.
  revert v. induction n as [|n IH]; intros v Hv.
  - cbn in *. lia.
  - cbn [big_endian]. rewrite from_big_endian_snoc, Z_of_byte_of_Z.
    rewrite Z.mod_mod by lia. rewrite IH.
    + pose proof (Z.div_mod v 256). lia.
    + rewrite Nat2Z.inj_succ, Z.pow_succ_r in Hv by lia.
      split; [apply Z.div_pos; lia | apply Z.div_lt_upper_bound; lia].
Qed.

(** C2 (integer-salt composition): [GetMsgKeyWithInt64Salt m N] is
    [GetMsgKeyWithBytesSalt m b], result and memory alike, for [b] the
    eight-byte big-endian encoding of [N] read as an unsigned 64-bit number. *)
Theorem int64_salt_composition m N st :
  GetMsgKeyWithInt64Salt PackBuffer m N st =
    GetMsgKeyWithBytesSalt PackBuffer m (big_endian 8 (uint64 N)) st ∧
  length (big_endian 8 (uint64 N)) = 8 ∧
  from_big_endian (big_endian 8 (uint64 N)) = uint64 N.
Proof.
  split; [|split].
  - unfold GetMsgKeyWithInt64Salt. by rewrite PutUint64_big_endian.
  - apply big_endian_length.
  - apply from_big_endian_big_endian. unfold uint64.
    change (256 ^ Z.of_nat 8)%Z with (2 ^ 64)%Z.
    apply Z.mod_pos_bound. lia.
Qed.


Lemma app_eq_proper_prefix (a b s1 s2 : list byte) :
  a ++ s1 = b ++ s2 → length a < length b → proper_prefix a b.
Proof.
  intros Heq Hlt. exists (take (length b - length a) s1). split.
  - intros Hnil. apply (f_equal length) in Hnil, Heq.
    rewrite length_take in Hnil. rewrite !length_app in Heq. simpl in Hnil. lia.
  - rewrite <- take_app_ge by lia. rewrite Heq. by rewrite take_app_length.
Qed.

Lemma same_length_not_proper_prefix (a b : list byte) :
  length a = length b → ¬ proper_prefix a b.
Proof.
  intros Hlen (k & Hk & ->). rewrite length_app in Hlen.
  destruct k; [done | simpl in Hlen; lia].
Qed.

(** C6, amended: two calls of [GetMsgKeyWithBytesSalt] whose pairs of
    id-zeroed wire bytes and salt differ return different keys provided
    neither id-zeroed wire encoding is a proper prefix of the other, as when
    the two have the same length, or the two salts have the same length. *)
Theorem salted_keys_distinct m1 m2 s1 s2 st1 st2 w1 w2 :
  pooled_wire PackBuffer m1 st1 = Some (inr w1) →
  pooled_wire PackBuffer m2 st2 = Some (inr w2) →
  2 ≤ length w1 → 2 ≤ length w2 →
  (¬ proper_prefix (set_id x00 x00 w1) (set_id x00 x00 w2) ∧
   ¬ proper_prefix (set_id x00 x00 w2) (set_id x00 x00 w1)) ∨
  length s1 = length s2 →
  (set_id x00 x00 w1, s1) ≠ (set_id x00 x00 w2, s2) →
  observe (GetMsgKeyWithBytesSalt PackBuffer m1 s1 st1) ≠
    observe (GetMsgKeyWithBytesSalt PackBuffer m2 s2 st2).
Proof.
  intros P1 P2 L1 L2 Hcond Hne.
  rewrite (GetMsgKeyWithBytesSalt_deriveKey m1 s1 st1 _ P1).
  rewrite (GetMsgKeyWithBytesSalt_deriveKey m2 s2 st2 _ P2).
  unfold deriveKey. rewrite !decide_True by done.
  intros [= Heq]. apply Hne.
  destruct Hcond as [[Hn12 Hn21]|Hlen].
  - destruct (Nat.lt_trichotomy (length (set_id x00 x00 w1))
                (length (set_id x00 x00 w2))) as [Hlt|[Hlen|Hgt]].
    + destruct Hn12. by eapply app_eq_proper_prefix.
    + by apply app_inj_1 in Heq as [-> ->].
    + destruct Hn21. by eapply app_eq_proper_prefix.
  - by apply app_inj_2 in Heq as [-> ->].
Qed.

(** For wire encodings of one length, and so for one message under two
    salts, different pairs give different keys. *)
Lemma salted_keys_distinct_same_length m1 m2 s1 s2 st1 st2 w1 w2 :
  pooled_wire PackBuffer m1 st1 = Some (inr w1) →
  pooled_wire PackBuffer m2 st2 = Some (inr w2) →
  2 ≤ length w1 → length w1 = length w2 →
  (set_id x00 x00 w1, s1) ≠ (set_id x00 x00 w2, s2) →
  observe (GetMsgKeyWithBytesSalt PackBuffer m1 s1 st1) ≠
    observe (GetMsgKeyWithBytesSalt PackBuffer m2 s2 st2).
Proof.
  intros P1 P2 L1 Hlen Hne.
  rewrite (GetMsgKeyWithBytesSalt_deriveKey m1 s1 st1 _ P1).
  rewrite (GetMsgKeyWithBytesSalt_deriveKey m2 s2 st2 _ P2).
  unfold deriveKey. rewrite !decide_True by lia.
  intros [= Heq]. apply Hne.
  apply app_inj_1 in Heq as [-> ->]; [done|]. by rewrite !set_id_length.
Qed.

End Observations.

Lemma transaction_id_independence_witness :
  let PB := pool.PackBuffer raw_wire in
  let m1 : raw_msg := inr [x12; x34; x01; x00; x07] in
  let m2 : raw_msg := inr [xab; xcd; x01; x00; x07] in
  observe (GetMsgKey raw_wire m1 0x0102 empty_state) =
    observe (GetMsgKey raw_wire m2 0x0102 empty_state) ∧
  observe (GetMsgKeyWithBytesSalt PB m1 [x41] empty_state) =
    observe (GetMsgKeyWithBytesSalt PB m2 [x41] empty_state).
Proof.
  intros PB m1 m2.
  apply (transaction_id_independence raw_wire PB m1 m2
           [x12; x34; x01; x00; x07] [xab; xcd; x01; x00; x07]
           [x12; x34; x01; x00; x07] [xab; xcd; x01; x00; x07]).
  - reflexivity.
  - reflexivity.
  - split; reflexivity.
  - vm_compute; reflexivity.
  - vm_compute; reflexivity.
  - split; reflexivity.
Defined.

Lemma key_derivation_deterministic_witness :
  let PB := pool.PackBuffer raw_wire in
  let m : raw_msg := inr [x12; x34; x01; x00; x07] in
  let st2 :=
    (GetMsgKeyWithBytesSalt PB (inr [x00; x00; x09]) [] empty_state).2 in
  observe (GetMsgKey raw_wire m 0x0102 empty_state) =
    observe (GetMsgKey raw_wire m 0x0102 st2) ∧
  observe (GetMsgKeyWithBytesSalt PB m [x41] empty_state) =
    observe (GetMsgKeyWithBytesSalt PB m [x41] st2) ∧
  observe (GetMsgKeyWithInt64Salt PB m (-2) empty_state) =
    observe (GetMsgKeyWithInt64Salt PB m (-2) st2).
Proof.
  intros PB m st2.
  apply (key_derivation_deterministic raw_wire PB m 0x0102 [x41] (-2)
           empty_state st2 (inr [x12; x34; x01; x00; x07])).
  - vm_compute; reflexivity.
  - vm_compute; reflexivity.
Defined.

Lemma minimal_message_scenario_witness :
  observe (GetMsgKeyWithBytesSalt (pool.PackBuffer raw_wire)
             (inr [x12; x34; x00; x00]) [xff] empty_state) =
    Ret (Some [x00; x00; x00; x00; xff], None).
Proof.
  apply (minimal_message_scenario (pool.PackBuffer raw_wire)
           (inr [x12; x34; x00; x00]) empty_state).
  vm_compute; reflexivity.
Defined.

Lemma GetMsgKey_content_witness :
  let w := [xab; xcd; x01; x00; x07] in
  let key := byte_of_Z (Z.shiftr 0x1234 8) :: byte_of_Z (Z.land 0x1234 255)
               :: drop 2 w in
  observe (GetMsgKey raw_wire (inr w) 0x1234 empty_state)
    = Ret (Some key, None) ∧
  length key = length w ∧
  Z_of_byte <$> take 2 key = [Z.shiftr 0x1234 8; Z.land 0x1234 255] ∧
  ∃ k st', GetMsgKey raw_wire (inr w) 0x1234 empty_state
             = (Ret (k, None), st') ∧ str_len k = length w.
Proof.
  intros w key.
  apply (GetMsgKey_content raw_wire (inr w) 0x1234 empty_state w).
  - reflexivity.
  - simpl; lia.
  - lia.
Defined.

Lemma zero_salts_agree_witness :
  let w := [xab; xcd; x01; x00; x07] in
  observe (GetMsgKey raw_wire (inr w) 0 empty_state) =
    Ret (Some (x00 :: x00 :: drop 2 w), None) ∧
  observe (GetMsgKeyWithBytesSalt (pool.PackBuffer raw_wire) (inr w) []
             empty_state) =
    Ret (Some (x00 :: x00 :: drop 2 w), None).
Proof.
  intros w.
  apply (zero_salts_agree raw_wire (pool.PackBuffer raw_wire) (inr w) w).
  - reflexivity.
  - vm_compute; reflexivity.
  - simpl; lia.
Defined.


(** ** Framing the entry points *)

Section Frame.
Variable P : block → Prop.
Variable st0 : State.
Variable P_live : ∀ b, P b → b ∈ dom (heap st0).

Lemma kept_refl : kept P st0 st0.
Proof. done. Qed.

Lemma steps_ret {A} (a : A) (Q : A → Prop) : Q a → steps P st0 (mret a) Q.
Proof. intros Ha st r st' HJ [= <- <-]. split; [done|]. by intros ? [= <-]. Qed.

Lemma steps_bind {A B} (c : M A) (k : A → M B)
    (Q1 : A → Prop) (Q2 : B → Prop) :
  steps P st0 c Q1 → (∀ a, Q1 a → steps P st0 (k a) Q2) →
  steps P st0 (c ≫= k) Q2.
Proof.
  intros Hc Hk st r st' HJ. unfold mbind, M_bind.
  destruct (c st) as [[a|] st1] eqn:E.
  - destruct (Hc _ _ _ HJ E) as [HJ1 HQ]. intros Hr.
    eapply Hk; eauto.
  - destruct (Hc _ _ _ HJ E) as [HJ1 _]. intros [= <- <-]. done.
Qed.

Lemma kept_insert st b bs :
  kept P st0 st → ¬ P b →
  kept P st0 (mkState (<[b := bs]> (heap st)) (pool_out st) (pool_free st)
                      (released st)).
Proof.
  intros (Ho & Hf & Hd & Hk) Hb. repeat split; cbn; try done.
  - intros b' Hb'. rewrite dom_insert. apply elem_of_union_r. by apply Hd.
  - intros b' Hb'. rewrite lookup_insert_ne by congruence. by apply Hk.
Qed.

Lemma steps_index_set s i v :
  (∀ b off, sl_data s = Some (b, off) → ¬ P b) →
  steps P st0 (index_set s i v) (λ _, True).
Proof using Type.
  intros Hs st r st' HJ. unfold index_set.
  case_decide; [|by intros [= <- <-]].
  destruct (sl_data s) as [[b off]|]; [|by intros [= <- <-]].
  destruct (heap st !! b); intros [= <- <-]; [|done].
  split; [|done]. apply kept_insert; eauto.
Qed.

Lemma steps_alloc bs : steps P st0 (alloc bs) (λ b, ¬ P b).
Proof using P_live.
  intros st r st' HJ [= <- <-].
  assert (Hfr : ¬ P (fresh (dom (heap st)))).
  { intros HP. apply (is_fresh (dom (heap st))).
    destruct HJ as (_ & _ & Hd & _). by apply Hd, P_live. }
  split; [by apply kept_insert|]. by intros ? [= <-].
Qed.

Lemma steps_deref s : steps P st0 (deref s) (λ _, True).
Proof.
  intros st r st' HJ. unfold deref.
  destruct (slice_bytes st s); by intros [= <- <-].
Qed.

Lemma steps_Grow sb n :
  builder_private P sb → steps P st0 (Grow sb n) (builder_private P).
Proof using P_live.
  intros Hsb. unfold Grow. case_decide; [|by apply steps_ret].
  eapply steps_bind; [apply steps_deref|]. intros old _.
  eapply steps_bind; [apply steps_alloc|]. intros b Hb.
  apply steps_ret. by intros ? [= <-].
Qed.

Lemma steps_Write sb p :
  builder_private P sb → steps P st0 (Write sb p) (builder_private P).
Proof using P_live.
  intros Hsb. unfold Write. destruct (sb_blk sb) as [b|] eqn:E.
  - case_decide.
    + intros st r st' HJ. destruct (heap st !! b); intros [= <- <-]; [|done].
      split; [apply kept_insert; eauto|]. intros ? [= <-] ? [= <-]. eauto.
    + eapply steps_bind; [apply steps_deref|]. intros old _.
      eapply steps_bind; [apply steps_alloc|]. intros b' Hb'.
      apply steps_ret. by intros ? [= <-].
  - case_decide; [by apply steps_ret|].
    eapply steps_bind; [apply steps_alloc|]. intros b' Hb'.
    apply steps_ret. by intros ? [= <-].
Qed.

End Frame.

Section PoolSafety.
Context {Msg : Type}.
Variable PackBuffer : Msg → M (slice * option Buffer * option error).

Lemma GetMsgKeyWithBytesSalt_frame m salt st r st' :
  pool_contract PackBuffer → pool_wf st →
  GetMsgKeyWithBytesSalt PackBuffer m salt st = (r, st') →
  pool_wf st' ∧ preserves_private st st'.
Proof.
  intros HC Hwf. unfold GetMsgKeyWithBytesSalt, mbind at 1, M_bind at 1.
  destruct (PackBuffer m st) as [o st1] eqn:HP.
  pose proof (pc_wf _ HC _ _ _ _ Hwf HP) as Hwf1.
  pose proof (pc_private _ HC _ _ _ _ Hwf HP) as Hpr1.
  destruct o as [[[wire buf] [e|]]|]; try (by intros [= <- <-]).
  unfold defer.
  set (P := λ b, b ∈ dom (heap st1) ∧ ¬ pool_owned st1 b).
  match goal with |- context [let '(_, _) := ?body st1 in _] =>
    assert (Hbody : steps P st1 body (λ _, True)) end.
  { assert (Hlive : ∀ b, P b → b ∈ dom (heap st1)) by (by intros b [? _]).
    assert (Hwire : ∀ b off, sl_data wire = Some (b, off) → ¬ P b).
    { intros b off Hd [_ Hb]. apply Hb.
      by apply (pc_view _ HC _ _ _ _ _ _ _ Hwf HP Hd). }
    eapply steps_bind; [by apply steps_index_set|]. intros _ _.
    eapply steps_bind; [by apply steps_index_set|]. intros _ _.
    eapply steps_bind; [by apply steps_Grow|]. intros sb Hsb.
    eapply steps_bind; [apply steps_deref|]. intros w _.
    eapply steps_bind; [by apply steps_Write|]. intros sb1 Hsb1.
    eapply steps_bind; [by apply steps_Write|]. intros sb2 Hsb2.
    by apply steps_ret. }
  match goal with |- context [let '(_, _) := ?body st1 in _] =>
    destruct (body st1) as [rb st2] eqn:Eb end.
  destruct (Hbody _ _ _ (kept_refl P st1) Eb) as [(Ho & Hf & Hd & Hk) _].
  assert (Hown : ∀ b, pool_owned st' b → heap st' = heap st2 →
                      (∀ x, x ∈ pool_out st' → x ∈ pool_out st2) →
                      (∀ x, x ∈ pool_free st' →
                            x ∈ pool_free st2 ∨ buf = Some x) →
                      pool_owned st1 b).
  { intros b [Hb|Hb] _ H1 H2.
    - left. rewrite <- Ho. by apply H1.
    - destruct (H2 _ Hb) as [Hb'| ->]; [right; by rewrite <- Hf|].
      by apply (pc_buffer _ HC _ _ _ _ _ Hwf HP). }
  intros Hrel.
  assert (Hst' : heap st' = heap st2 ∧
                 (∀ x, x ∈ pool_out st' → x ∈ pool_out st2) ∧
                 (∀ x, x ∈ pool_free st' →
                       x ∈ pool_free st2 ∨ buf = Some x)).
  { destruct buf as [b|]; cbn in Hrel.
    - injection Hrel as _ <-. cbn. split; [done|]. split.
      + intros x Hx. by apply list_elem_of_filter in Hx as [_ ?].
      + intros x [->|Hx]%elem_of_cons; eauto.
    - injection Hrel as _ <-. eauto. }
  destruct Hst' as (Hh & H1 & H2).
  split.
  - intros b Hb. rewrite Hh. apply Hd, Hwf1. by apply Hown.
  - intros b Hb Hnb. destruct (Hpr1 b Hb Hnb) as [Hl Hn1].
    assert (Hb1 : b ∈ dom (heap st1)).
    { apply elem_of_dom. rewrite Hl. by apply elem_of_dom. }
    split.
    + rewrite Hh, <- Hl. by apply Hk.
    + intros Ho'. apply Hn1. by apply Hown.
Qed.


Lemma GetMsgKeyWithBytesSalt_inv m salt st k st1 :
  GetMsgKeyWithBytesSalt PackBuffer m salt st = (Ret (k, None), st1) →
  ∃ wire buf st0 wb off blk,
    PackBuffer m st = (Ret (wire, Some buf, None), st0) ∧
    sl_data wire = Some (wb, off) ∧ heap st0 !! wb = Some blk ∧
    off + sl_len wire ≤ length blk ∧ 2 ≤ sl_len wire.
Proof.
  unfold GetMsgKeyWithBytesSalt, mbind at 1, M_bind at 1.
  destruct (PackBuffer m st) as [[[[wire buf] [e|]]|] st0] eqn:HP;
    try (by intros [=]).
  unfold defer.
  match goal with |- context [let '(_, _) := ?body st0 in _] =>
    destruct (body st0) as [rb st2] eqn:Eb end.
  destruct buf as [buf|]; [|by intros [=]].
  cbn. intros [= -> <-].
  exists wire, buf, st0.
  revert Eb. unfold mbind, M_bind.
  destruct (index_set wire 0 x00 st0) as [[[]|] sa] eqn:E0.
  2: by intros [=].
  destruct (index_set wire 1 x00 sa) as [[[]|] sb] eqn:E1.
  2: by intros [=].
  unfold index_set in E0, E1.
  destruct (decide (1 < sl_len wire)) as [Hlen|Hn].
  2: by inversion E1.
  destruct (decide (0 < sl_len wire)) as [_|Hn].
  2: lia.
  destruct (sl_data wire) as [[wb off]|] eqn:Hd.
  2: by inversion E0.
  destruct (heap st0 !! wb) as [blk|] eqn:Hb.
  2: by inversion E0.
  injection E0 as <-. cbn in E1. rewrite lookup_insert_eq in E1.
  injection E1 as <-. rewrite insert_insert_eq.
  rewrite Grow_new_run by lia. cbn [heap].
  set (h1 := <[wb := _]> (heap st0)).
  destruct (deref wire _) as [[w|] sc] eqn:Ed.
  2: by intros [=].
  intros _. exists wb, off, blk. repeat split; try done.
  unfold deref, slice_bytes in Ed. rewrite Hd in Ed. cbn [heap] in Ed.
  assert (Hkb : fresh (dom h1) ≠ wb).
  { intros E. apply (is_fresh (dom h1)). rewrite E. apply elem_of_dom.
    unfold h1. rewrite lookup_insert_eq. eauto. }
  rewrite load_insert_ne in Ed by done. unfold h1 in Ed. simpl in Ed.
  rewrite lookup_insert_eq in Ed.
  case_decide as Hle.
  2: by inversion Ed.
  by rewrite !length_insert in Hle.
Qed.

Lemma private_survives_calls st1 st2 b bs :
  pool_contract PackBuffer → rtc (later_call PackBuffer) st1 st2 →
  pool_wf st1 → ¬ pool_owned st1 b → heap st1 !! b = Some bs →
  pool_wf st2 ∧ ¬ pool_owned st2 b ∧ heap st2 !! b = Some bs.
Proof.
  intros HC Hrtc.
  induction Hrtc as [|sa sb sc (m & salt & r & Hcall) _ IH]; [done|].
  intros Hwf Hnot Hl.
  destruct (GetMsgKeyWithBytesSalt_frame _ _ _ _ _ HC Hwf Hcall) as [Hwf' Hpr].
  destruct (Hpr b) as [Hl' Hnot']; [by apply elem_of_dom; eauto | done |].
  apply IH; [done | done | by rewrite Hl'].
Qed.

(** C8 (pool safety): the key [GetMsgKeyWithBytesSalt] returns lies in an
    allocation of its own, outside the pool, and keeps its bytes through any
    number of later calls, which release and reuse the pooled buffers. *)
Theorem key_survives_pool_reuse m salt st k st1 :
  pool_contract PackBuffer → pool_wf st →
  GetMsgKeyWithBytesSalt PackBuffer m salt st = (Ret (k, None), st1) →
  ∃ kb key,
    str_data k = Some (kb, 0) ∧ ¬ pool_owned st1 kb ∧
    string_bytes st1 k = Some key ∧
    ∀ st2, rtc (later_call PackBuffer) st1 st2 →
           string_bytes st2 k = Some key.
Proof.
  intros HC Hwf Hrun.
  destruct (GetMsgKeyWithBytesSalt_inv _ _ _ _ _ Hrun)
    as (wire & buf & st0 & wb & off & blk & HP & Hd & Hb & Hle & Hlen).
  pose proof (GetMsgKeyWithBytesSalt_frame _ _ _ _ _ HC Hwf Hrun) as [Hwf1 _].
  rewrite (GetMsgKeyWithBytesSalt_run PackBuffer m salt st wire buf st0 wb off
             blk HP Hd Hb Hle Hlen) in Hrun.
  cbv zeta in Hrun. injection Hrun as <- <-.
  set (blk' := <[off + 1 := x00]> (<[off + 0 := x00]> blk)) in *.
  set (h1 := <[wb := blk']> (heap st0)) in *.
  set (kb := fresh (dom h1)) in *.
  set (key := take (sl_len wire) (drop off blk') ++ salt) in *.
  set (st1 := mkState _ _ _ _) in *.
  assert (Hkey : length key = sl_len wire + length salt).
  { unfold key, blk'. rewrite length_app, length_take, length_drop.
    rewrite !length_insert. lia. }
  assert (Hfresh : kb ∉ dom h1) by apply is_fresh.
  assert (Hnot : ¬ pool_owned st1 kb).
  { pose proof (pc_wf _ HC _ _ _ _ Hwf HP) as Hwf0.
    pose proof (pc_buffer _ HC _ _ _ _ _ Hwf HP) as Hbuf.
    assert (Hown0 : pool_owned st0 kb → False).
    { intros Ho. apply Hfresh. unfold h1. rewrite dom_insert.
      apply elem_of_union_r. by apply Hwf0. }
    intros [Ho|Ho]; cbn in Ho.
    - apply list_elem_of_filter in Ho as [_ Ho]. apply Hown0. by left.
    - apply elem_of_cons in Ho as [->|Ho]; [by apply Hown0|].
      apply Hown0. by right. }
  exists kb, key. split; [done|]. split; [done|].
  assert (Hnow : string_bytes st1 (GoString (Some (kb, 0))
                   (sl_len wire + length salt)) = Some key).
  { unfold string_bytes. cbn [heap st1 str_data str_len].
    rewrite load_insert_eq by lia. by rewrite drop_0, take_ge by lia. }
  split; [done|].
  intros st2 Hrtc.
  destruct (private_survives_calls st1 st2 kb key HC Hrtc) as (_ & _ & Hl);
    [done | done | apply lookup_insert_eq |].
  unfold string_bytes. cbn. rewrite Hl.
  rewrite decide_True by lia. by rewrite drop_0, take_ge by lia.
Qed.

End PoolSafety.

(** ** The pool of the scenarios keeps the contract *)

Lemma preserves_private_trans st1 st2 st3 :
  preserves_private st1 st2 → preserves_private st2 st3 →
  preserves_private st1 st3.
Proof.
  intros H12 H23 b Hb Hn. destruct (H12 b Hb Hn) as [Hl Hn2].
  destruct (H23 b) as [Hl3 Hn3]; [|done|].
  - apply elem_of_dom. rewrite Hl. by apply elem_of_dom.
  - split; [congruence | done].
Qed.

Lemma GetBuf_step n st :
  pool_wf st →
  ∃ b st', pool.GetBuf n st = (Ret b, st') ∧ pool_wf st' ∧
           preserves_private st st' ∧ b ∈ pool_out st'.
Proof.
  intros Hwf. unfold pool.GetBuf.
  set (reuse := match pool_free st with [] => None | _ => _ end).
  destruct reuse as [[b rest]|] eqn:E.
  - assert (Hfree : pool_free st = b :: rest).
    { unfold reuse in E. destruct (pool_free st) as [|b' rest']; [done|].
      destruct (heap st !! b'); [|done]. case_decide; [|done]. congruence. }
    eexists _, _. split; [done|].
    assert (Hsame : ∀ x, pool_owned (mkState (heap st) (b :: pool_out st) rest
                                       (released st)) x → pool_owned st x).
    { intros x [Hx|Hx]; cbn in Hx.
      - apply elem_of_cons in Hx as [->|Hx]; [|by left].
        right. rewrite Hfree. by left.
      - right. rewrite Hfree. by right. }
    split; [|split].
    + intros x Hx. by apply Hwf, Hsame.
    + intros x Hx Hn. split; [done|]. intros Ho. by apply Hn, Hsame.
    + cbn. by left.
  - eexists _, _. split; [reflexivity|].
    set (b := fresh (dom (heap st))).
    assert (Hb : b ∉ dom (heap st)) by apply is_fresh.
    split; [|split].
    + intros x [Hx|Hx]; cbn in *.
      * rewrite dom_insert. apply elem_of_cons in Hx as [->|Hx].
        -- apply elem_of_union_l. by apply elem_of_singleton.
        -- apply elem_of_union_r, Hwf. by left.
      * rewrite dom_insert. apply elem_of_union_r, Hwf. by right.
    + intros x Hx Hn. cbn. split.
      * rewrite lookup_insert_ne; [done|]. intros ->. done.
      * intros [Ho|Ho]; cbn in Ho.
        -- apply elem_of_cons in Ho as [->|Ho]; [done|]. apply Hn. by left.
        -- apply Hn. by right.
    + cbn. by left.
Qed.

Lemma store_step (buf : Buffer) w st :
  pool_wf st → pool_owned st buf →
  ∃ st', pool.store buf w st = (Ret (), st') ∧ pool_wf st' ∧
         preserves_private st st' ∧ pool_out st' = pool_out st ∧
         heap st' !! buf = write_at 0 w <$> heap st !! buf.
Proof.
  intros Hwf Hbuf. unfold pool.store, Buffer in *.
  destruct (heap st !! buf) as [bs|] eqn:E.
  2:{ apply Hwf, elem_of_dom in Hbuf as [? ?]. congruence. }
  eexists. split; [done|]. split; [|split; [|split]].
  - intros x Hx. cbn. rewrite dom_insert. apply elem_of_union_r. by apply Hwf.
  - intros x Hx Hn. cbn. split; [|done].
    rewrite lookup_insert_ne; [done|]. by intros ->.
  - done.
  - cbn. by rewrite lookup_insert_eq.
Qed.

Lemma Release_step (buf : Buffer) st :
  pool_wf st → pool_owned st buf →
  ∃ st', Release (Some buf) st = (Ret (), st') ∧ pool_wf st' ∧
         preserves_private st st'.
Proof.
  intros Hwf Hbuf. eexists. split; [done|].
  assert (Hsame : ∀ x, pool_owned (mkState (heap st)
                         (filter (.≠ buf) (pool_out st)) (buf :: pool_free st)
                         (released st ++ [buf])) x → pool_owned st x).
  { intros x [Hx|Hx]; cbn in Hx.
    - apply list_elem_of_filter in Hx as [_ Hx]. by left.
    - apply elem_of_cons in Hx as [->|Hx]; [done | by right]. }
  split.
  - intros x Hx. by apply Hwf, Hsame.
  - intros x Hx Hn. split; [done|]. intros Ho. by apply Hn, Hsame.
Qed.

Section ConcretePool.
Context {Msg : Type}.
Variable wire_format : Msg → error + list byte.

Lemma PackBuffer_run m st :
  pool_wf st →
  ∃ r st', pool.PackBuffer wire_format m st = (Ret r, st') ∧
    pool_wf st' ∧ preserves_private st st' ∧
    match wire_format m with
    | inl e => r = (nil_slice, None, Some e)
    | inr w => ∃ b, r = (Slice (Some (b, 0)) (length w), Some b, None) ∧
                    b ∈ pool_out st'
    end.
Proof.
  intros Hwf. unfold pool.PackBuffer, mbind, M_bind.
  destruct (GetBuf_step
              (match wire_format m with inr w => length w | inl _ => 0 end)
              st Hwf) as (b & st1 & -> & Hwf1 & Hp1 & Hb).
  destruct (wire_format m) as [e|w].
  - destruct (Release_step b st1 Hwf1) as (st2 & Hr & Hwf2 & Hp2); [by left|].
    eexists _, _. rewrite Hr. split; [done|]. split; [done|]. split; [|done].
    by eapply preserves_private_trans.
  - destruct (store_step b w st1 Hwf1) as (st2 & Hr & Hwf2 & Hp2 & Ho & _);
      [by left|].
    eexists _, _. rewrite Hr. split; [done|]. split; [done|]. split.
    + by eapply preserves_private_trans.
    + exists b. split; [done|]. by rewrite Ho.
Qed.

Lemma pool_PackBuffer_contract : pool_contract (pool.PackBuffer wire_format).
Proof.
  split.
  - intros m st r st' Hwf H.
    destruct (PackBuffer_run m st Hwf) as (r' & st'' & E & Hwf' & _).
    rewrite E in H. by injection H as _ <-.
  - intros m st r st' Hwf H.
    destruct (PackBuffer_run m st Hwf) as (r' & st'' & E & _ & Hp & _).
    rewrite E in H. by injection H as _ <-.
  - intros m st wire b st' Hwf H.
    destruct (PackBuffer_run m st Hwf) as (r' & st'' & E & _ & _ & Hr).
    rewrite E in H. injection H as -> <-.
    destruct (wire_format m) as [e|w]; [done|].
    destruct Hr as (b' & [= _ ->] & Hb). by left.
  - intros m st wire buf st' b off Hwf H Hd.
    destruct (PackBuffer_run m st Hwf) as (r' & st'' & E & _ & _ & Hr).
    rewrite E in H. injection H as -> <-.
    destruct (wire_format m) as [e|w]; [done|].
    destruct Hr as (b' & [= -> _] & Hb). cbn in Hd. injection Hd as <- _.
    by left.
Qed.

End ConcretePool.

Lemma empty_state_wf : pool_wf empty_state.
Proof. intros b [Hb|Hb]; cbn in Hb; by apply elem_of_nil in Hb. Qed.

Lemma key_survives_pool_reuse_witness :
  let PB := pool.PackBuffer raw_wire in
  let r1 := GetMsgKeyWithBytesSalt PB (inr [x12; x34; x00; x00]) [xff]
              empty_state in
  let k := GoString (Some (1, 0)) 5 in
  ∃ kb key,
    str_data k = Some (kb, 0) ∧ ¬ pool_owned r1.2 kb ∧
    string_bytes r1.2 k = Some key ∧
    ∀ st2, rtc (later_call PB) r1.2 st2 → string_bytes st2 k = Some key.
Proof.
  intros PB r1 k.
  apply (key_survives_pool_reuse PB (inr [x12; x34; x00; x00]) [xff]
           empty_state k r1.2).
  - apply pool_PackBuffer_contract.
  - apply empty_state_wf.
  - vm_compute; reflexivity.
Defined.

(** The pool at work: the second call gets the buffer of the first, block
    0, and overwrites it.  The first key, in block 1, reads as before; a
    string sharing the pooled buffer, as [BytesToStringUnsafe] would make of
    the wire view, has changed. *)
Lemma pool_reuse_scenario :
  let PB := pool.PackBuffer raw_wire in
  let r1 := GetMsgKeyWithBytesSalt PB (inr [x12; x34; x00; x00]) [xff]
              empty_state in
  let r2 := GetMsgKeyWithBytesSalt PB (inr [xab; xcd; x01; x02]) [x01] r1.2 in
  let view := BytesToStringUnsafe (Slice (Some (0, 0)) 4) in
  r1.1 = Ret (GoString (Some (1, 0)) 5, None) ∧
  pool_free r1.2 = [0] ∧ released r1.2 = [0] ∧
  string_bytes r1.2 view = Some [x00; x00; x00; x00] ∧
  string_bytes r2.2 view = Some [x00; x00; x01; x02] ∧
  string_bytes r1.2 (GoString (Some (1, 0)) 5)
    = Some [x00; x00; x00; x00; xff] ∧
  string_bytes r2.2 (GoString (Some (1, 0)) 5)
    = Some [x00; x00; x00; x00; xff] ∧
  observe r2 = Ret (Some [x00; x00; x01; x02; x01], None).
Proof. cbn zeta. repeat split; vm_compute; reflexivity. Qed.

(** ** Encoding errors *)

Lemma labeled_irrefl e : ¬ labeled e e.
Proof.
  intros [label H]. revert label H.
  induction e as [msg|l c IH]; intros label H; [done|].
  injection H as _ H. by apply (IH l).
Qed.

Lemma GetBuf_checks_out n st :
  ∃ (b : Buffer) st1,
    pool.GetBuf n st = (Ret b, st1) ∧
    pool_out st1 = b :: pool_out st ∧ released st1 = released st.
Proof.
  unfold pool.GetBuf.
  set (reuse := match pool_free st with [] => None | _ => _ end).
  destruct reuse as [[b rest]|]; by eexists _, _.
Qed.

Section Errors.
Context {Msg : Type}.
Variable wire_format : Msg → error + list byte.

(** On a message that cannot be encoded the pooled serializer returns the
    error alone, after it has given back the buffer it had checked out. *)
Lemma PackBuffer_fails m e st :
  wire_format m = inl e →
  ∃ (b : Buffer) st',
    pool.PackBuffer wire_format m st = (Ret (nil_slice, None, Some e), st') ∧
    (pool.GetBuf 0 st).1 = Ret b ∧
    released st' = released st ++ [b] ∧
    pool_out st' = filter (.≠ b) (pool_out st).
Proof.
  intros Hw. unfold pool.PackBuffer, mbind, M_bind. rewrite Hw.
  destruct (GetBuf_checks_out 0 st) as (b & st1 & HG & Ho & Hr).
  rewrite HG. cbn. exists b. eexists. split; [done|]. split; [done|]. cbn.
  rewrite Hr, Ho. split; [done|].
  rewrite filter_cons. by rewrite decide_False by (intros H; by apply H).
Qed.

(** C5, amended: when the serialization of [m] fails with [e], every entry
    point returns the empty string and [e] itself, with no label added, and
    no pooled buffer is leaked: [Release] is called on the buffer [b] that
    was checked out before the failure, [b] is not left checked out, and no
    buffer is checked out after the call that was not before it. *)
Theorem encode_error_propagates m e salt16 salt salt64 st :
  wire_format m = inl e →
  GetMsgKey wire_format m salt16 st = (Ret (empty_string, Some e), st) ∧
  (∃ (b : Buffer) st',
     GetMsgKeyWithBytesSalt (pool.PackBuffer wire_format) m salt st =
       (Ret (empty_string, Some e), st') ∧
     GetMsgKeyWithInt64Salt (pool.PackBuffer wire_format) m salt64 st =
       (Ret (empty_string, Some e), st') ∧
     (pool.GetBuf 0 st).1 = Ret b ∧
     released st' = released st ++ [b] ∧
     (b ∉ pool_out st') ∧
     ∀ x, x ∈ pool_out st' → x ∈ pool_out st) ∧
  ¬ labeled e e.
Proof.
  intros Hw. split; [by apply GetMsgKey_error|]. split; [|apply labeled_irrefl].
  destruct (PackBuffer_fails m e st Hw) as (b & st' & HP & HG & Hr & Ho).
  exists b, st'. split; [|split; [|split; [|split; [|split]]]].
  - by apply (GetMsgKeyWithBytesSalt_error _ m salt st nil_slice None).
  - by apply (GetMsgKeyWithBytesSalt_error _ m _ st nil_slice None).
  - done.
  - done.
  - rewrite Ho. intros [Hb _]%list_elem_of_filter. by apply Hb.
  - intros x. rewrite Ho. by intros [_ Hx]%list_elem_of_filter.
Qed.

End Errors.

Lemma encode_error_propagates_witness :
  GetMsgKey raw_wire (inl unencodable) 7 empty_state =
    (Ret (empty_string, Some unencodable), empty_state) ∧
  (∃ (b : Buffer) st',
     GetMsgKeyWithBytesSalt (pool.PackBuffer raw_wire) (inl unencodable) [xff]
       empty_state = (Ret (empty_string, Some unencodable), st') ∧
     GetMsgKeyWithInt64Salt (pool.PackBuffer raw_wire) (inl unencodable) 7
       empty_state = (Ret (empty_string, Some unencodable), st') ∧
     (pool.GetBuf 0 empty_state).1 = Ret b ∧
     released st' = released empty_state ++ [b] ∧
     (b ∉ pool_out st') ∧
     ∀ x, x ∈ pool_out st' → x ∈ pool_out empty_state) ∧
  ¬ labeled unencodable unencodable.
Proof.
  apply (encode_error_propagates raw_wire (inl unencodable) unencodable 7
           [xff] 7 empty_state).
  reflexivity.
Defined.

(** C5 as stated fails on the label: the error of the serializer comes back
    as it is, from [GetMsgKey] and from [GetMsgKeyWithBytesSalt] alike, and
    not wrapped under any label. *)
Lemma encode_error_unlabeled :
  GetMsgKey raw_wire (inl unencodable) 7 empty_state =
    (Ret (empty_string, Some unencodable), empty_state) ∧
  (GetMsgKeyWithBytesSalt (pool.PackBuffer raw_wire) (inl unencodable) [xff]
     empty_state).1 = Ret (empty_string, Some unencodable) ∧
  (∀ e', (GetMsgKey raw_wire (inl unencodable) 7 empty_state).1
         = Ret (empty_string, Some e') → ¬ labeled unencodable e') ∧
  (∀ e', (GetMsgKeyWithBytesSalt (pool.PackBuffer raw_wire)
            (inl unencodable) [xff] empty_state).1
         = Ret (empty_string, Some e') → ¬ labeled unencodable e').
Proof.
  split; [reflexivity|]. split; [vm_compute; reflexivity|]. split.
  - intros e' H [label ->]. vm_compute in H. discriminate H.
  - intros e' H [label ->]. vm_compute in H. discriminate H.
Qed.

(** ** Salted keys *)


(** C6 as stated fails: the salt is appended with no mark of where it
    starts, so a wire encoding that goes on with the other pair's salt gives
    the same key. *)
Lemma concatenation_ambiguity :
  let w1 := [x12; x34; x00; x00] in
  let w2 := [x12; x34; x00; x00; xff] in
  (set_id x00 x00 w1, [xff]) ≠ (set_id x00 x00 w2, []) ∧
  proper_prefix (set_id x00 x00 w1) (set_id x00 x00 w2) ∧
  observe (GetMsgKeyWithBytesSalt (pool.PackBuffer raw_wire) (inr w1) [xff]
             empty_state) =
    Ret (Some [x00; x00; x00; x00; xff], None) ∧
  observe (GetMsgKeyWithBytesSalt (pool.PackBuffer raw_wire) (inr w2) []
             empty_state) =
    Ret (Some [x00; x00; x00; x00; xff], None).
Proof.
  split; [discriminate|]. split; [by exists [xff]|].
  split; vm_compute; reflexivity.
Qed.

Lemma salted_keys_distinct_witness :
  observe (GetMsgKeyWithBytesSalt (pool.PackBuffer raw_wire)
             (inr [x12; x34; x00; x00]) [xff] empty_state) ≠
  observe (GetMsgKeyWithBytesSalt (pool.PackBuffer raw_wire)
             (inr [x56; x78; x00; x00]) [xfe] empty_state).
Proof.
  apply (salted_keys_distinct (pool.PackBuffer raw_wire) _ _ _ _ _ _
           [x12; x34; x00; x00] [x56; x78; x00; x00]).
  - vm_compute; reflexivity.
  - vm_compute; reflexivity.
  - simpl; lia.
  - simpl; lia.
  - left. split; apply same_length_not_proper_prefix; reflexivity.
  - discriminate.
Defined.


(** ** [SplitString2] *)

Lemma HasPrefix_true s p : HasPrefix s p = true ↔ ∃ t, s = p ++ t.
Proof.
  revert s. induction p as [|a p IH]; intros s; simpl.
  - split; [by exists s | done].
  - destruct s as [|b s].
    + split; [done | intros [t [=]]].
    + case_decide as E.
      * subst b. rewrite IH.
        split; intros [t Ht]; exists t; simpl in *; congruence.
      * split; [done | intros [t [=]]; congruence].
Qed.

Lemma Index_range s substr : (-1 ≤ Index s substr ≤ Z.of_nat (length s))%Z.
Proof.
  induction s as [|c s IH]; simpl.
  - destruct (HasPrefix [] substr); lia.
  - destruct (HasPrefix (c :: s) substr); [lia|].
    destruct (Z.ltb_spec (Index s substr) 0); lia.
Qed.

Lemma Index_found s substr :
  (0 ≤ Index s substr)%Z →
  HasPrefix (drop (Z.to_nat (Index s substr)) s) substr = true ∧
  ∀ j, j < Z.to_nat (Index s substr) → HasPrefix (drop j s) substr = false.
Proof.
  induction s as [|c s IH]; simpl.
  - destruct (HasPrefix [] substr) eqn:E; [|lia].
    intros _. split; [done | simpl; lia].
  - destruct (HasPrefix (c :: s) substr) eqn:E.
    + intros _. split; [done | simpl; lia].
    + destruct (Z.ltb_spec (Index s substr) 0) as [Hneg|Hpos]; [lia|].
      intros _. destruct (IH Hpos) as [Hat Hbefore].
      replace (Z.to_nat (Index s substr + 1)) with (S (Z.to_nat (Index s substr)))
        by lia.
      split; [done|]. intros [|j] Hj; [done|]. simpl. apply Hbefore. lia.
Qed.

Lemma Index_absent s substr :
  (Index s substr < 0)%Z → ∀ j, HasPrefix (drop j s) substr = false.
Proof.
  induction s as [|c s IH]; simpl.
  - destruct (HasPrefix [] substr) eqn:E; [lia|].
    intros _ j. by rewrite drop_nil.
  - destruct (HasPrefix (c :: s) substr) eqn:E; [lia|].
    destruct (Z.ltb_spec (Index s substr) 0) as [Hneg|Hpos]; [|lia].
    intros _ [|j]; [done|]. simpl. by apply IH.
Qed.

(** C10: with an empty [symbol], [SplitString2] returns [("", s, true)];
    when it returns [ok = true] for a non-empty [symbol], [s] is
    [s1 ++ symbol ++ s2] and [symbol] occurs at no position before the end of
    [s1]: [s1] is what precedes its first occurrence. *)
Theorem SplitString2_correct s symbol s1 s2 :
  SplitString2 s [] = ([], s, true) ∧
  (symbol ≠ [] → SplitString2 s symbol = (s1, s2, true) →
   s = s1 ++ symbol ++ s2 ∧
   ∀ j, j < length s1 → HasPrefix (drop j s) symbol = false).
Proof.
  split; [done|]. intros Hne. unfold SplitString2.
  rewrite decide_False by (destruct symbol; done).
  destruct (Z.leb_spec 0 (Index s symbol)) as [Hpos|Hneg]; [|done].
  intros [= <- <-].
  destruct (Index_found s symbol Hpos) as [Hat Hbefore].
  set (i := Z.to_nat (Index s symbol)) in *.
  apply HasPrefix_true in Hat as [t Ht].
  assert (Hi : i ≤ length s).
  { pose proof (Index_range s symbol). lia. }
  split.
  - rewrite <- (take_drop i s) at 1. f_equal.
    rewrite <- drop_drop, Ht, drop_app_length. done.
  - intros j Hj. apply Hbefore. rewrite length_take in Hj. lia.
Qed.

Lemma SplitString2_correct_witness :
  let s := [x61; x3a; x2f; x2f; x62] in
  let symbol := [x3a; x2f; x2f] in
  SplitString2 s symbol = ([x61], [x62], true) ∧
  s = [x61] ++ symbol ++ [x62] ∧
  ∀ j, j < length [x61] → HasPrefix (drop j s) symbol = false.
Proof.
  intros s symbol. split; [reflexivity|].
  apply (SplitString2_correct s symbol [x61] [x62]);
    [discriminate | reflexivity].
Defined.

(** * Further properties of the package *)

(** ** Occurrences and [Index] *)

Lemma HasPrefix_nil_false symbol : symbol ≠ [] → HasPrefix [] symbol = false.
Proof. by destruct symbol. Qed.

Lemma occurs_at_bound symbol s j :
  symbol ≠ [] → occurs_at symbol s j → j + length symbol ≤ length s.
Proof.
  intros Hne. unfold occurs_at. intros [t Ht]%HasPrefix_true.
  apply (f_equal length) in Ht. rewrite length_drop, length_app in Ht.
  destruct symbol; [done|]. simpl in *. lia.
Qed.

Lemma Index_first s symbol i :
  occurs_at symbol s i → (∀ j, j < i → ¬ occurs_at symbol s j) →
  Index s symbol = Z.of_nat i.
Proof.
  unfold occurs_at. revert i. induction s as [|c s IH]; intros i Hi Hbefore.
  - destruct i as [|i].
    + simpl in *. by rewrite Hi.
    + destruct (Hbefore 0); [lia|]. by rewrite drop_nil in *.
  - cbn [Index]. destruct (HasPrefix (c :: s) symbol) eqn:E.
    + destruct i as [|i]; [done|]. destruct (Hbefore 0); [lia | done].
    + destruct i as [|i]; [simpl in Hi; congruence|].
      rewrite (IH i); [|done|].
      * destruct (Z.ltb_spec (Z.of_nat i) 0); lia.
      * intros j Hj. apply (Hbefore (S j)). lia.
Qed.

Lemma Index_neg_iff s symbol :
  (Index s symbol < 0)%Z ↔ ∀ j, ¬ occurs_at symbol s j.
Proof.
  split.
  - intros H j. unfold occurs_at. by rewrite (Index_absent s symbol H).
  - intros H. destruct (Z.lt_ge_cases (Index s symbol) 0) as [|Hpos]; [done|].
    destruct (Index_found s symbol Hpos) as [Hat _]. by destruct (H _ Hat).
Qed.

Lemma occurs_at_take symbol s i j :
  symbol ≠ [] → occurs_at symbol (take i s) j → occurs_at symbol s j.
Proof.
  intros Hne Hocc. pose proof (occurs_at_bound _ _ _ Hne Hocc) as Hb.
  unfold occurs_at in *. apply HasPrefix_true in Hocc as [t Ht].
  apply HasPrefix_true. exists (t ++ drop i s).
  rewrite <- (take_drop i s) at 1. rewrite drop_app_le.
  - by rewrite Ht, <- app_assoc.
  - destruct symbol; [done|]. simpl in Hb. lia.
Qed.

(** X1: for a non-empty [symbol], [SplitString2] answers [ok = false]
    exactly when [symbol] occurs nowhere in [s], and both parts are then
    empty. *)
Theorem SplitString2_not_found s symbol :
  symbol ≠ [] →
  ((SplitString2 s symbol).2 = false ↔ ∀ j, ¬ occurs_at symbol s j) ∧
  ((SplitString2 s symbol).2 = false → SplitString2 s symbol = ([], [], false)).
Proof.
  intros Hne. unfold SplitString2.
  rewrite decide_False by (by destruct symbol).
  destruct (Z.leb_spec 0 (Index s symbol)) as [Hpos|Hneg]; cbn.
  - split; [|done]. split; [done|]. intros H.
    apply Index_neg_iff in H. lia.
  - split; [|done]. split; [|done]. intros _. by apply Index_neg_iff.
Qed.

Lemma Index_join s1 s2 symbol :
  (∀ j, j < length s1 → ¬ occurs_at symbol (s1 ++ symbol ++ s2) j) →
  Index (s1 ++ symbol ++ s2) symbol = Z.of_nat (length s1).
Proof.
  intros Hbefore. apply Index_first; [|done].
  unfold occurs_at. rewrite drop_app_length. apply HasPrefix_true. eauto.
Qed.

(** X2 (round trip): when [symbol] is not empty and occurs at no position
    before the end of [s1] in [s1 ++ symbol ++ s2], [SplitString2] gives back
    [s1] and [s2]; [s2] may hold further occurrences. *)
Theorem SplitString2_join s1 s2 symbol :
  symbol ≠ [] →
  (∀ j, j < length s1 → ¬ occurs_at symbol (s1 ++ symbol ++ s2) j) →
  SplitString2 (s1 ++ symbol ++ s2) symbol = (s1, s2, true).
Proof.
  intros Hne Hbefore. unfold SplitString2.
  rewrite decide_False by (by destruct symbol).
  rewrite Index_join by done.
  destruct (Z.leb_spec 0 (Z.of_nat (length s1))); [|lia].
  rewrite Nat2Z.id, take_app_length.
  rewrite app_assoc, <- length_app, drop_app_length. done.
Qed.

Lemma SplitString2_ok_inv s symbol s1 s2 :
  symbol ≠ [] → SplitString2 s symbol = (s1, s2, true) →
  (0 ≤ Index s symbol)%Z ∧ s1 = take (Z.to_nat (Index s symbol)) s ∧
  s2 = drop (Z.to_nat (Index s symbol) + length symbol) s.
Proof.
  intros Hne. unfold SplitString2.
  rewrite decide_False by (by destruct symbol).
  destruct (Z.leb_spec 0 (Index s symbol)); [|done]. by intros [= <- <-].
Qed.

Lemma take_Index_clean s symbol :
  symbol ≠ [] → (0 ≤ Index s symbol)%Z →
  ∀ j, ¬ occurs_at symbol (take (Z.to_nat (Index s symbol)) s) j.
Proof.
  intros Hne Hpos j Hocc.
  destruct (Index_found s symbol Hpos) as [_ Hbefore].
  pose proof (occurs_at_bound _ _ _ Hne Hocc) as Hb.
  rewrite length_take in Hb.
  apply occurs_at_take in Hocc; [|done].
  unfold occurs_at in Hocc. rewrite Hbefore in Hocc; [done|].
  destruct symbol; [done | simpl in Hb; lia].
Qed.

Lemma SplitString2_absent_inv s symbol :
  symbol ≠ [] → (SplitString2 s symbol).2 = false →
  ∀ j, ¬ occurs_at symbol s j.
Proof.
  intros Hne. unfold SplitString2.
  rewrite decide_False by (by destruct symbol).
  destruct (Z.leb_spec 0 (Index s symbol)) as [|Hneg]; [done|].
  intros _. by apply Index_neg_iff.
Qed.

Lemma scheme_sep_no_overlap p h j :
  (∀ i, ¬ occurs_at scheme_sep p i) → j < length p →
  ¬ occurs_at scheme_sep (p ++ scheme_sep ++ h) j.
Proof.
  intros Hp Hj. unfold occurs_at. rewrite drop_app_le by lia.
  specialize (Hp j). unfold occurs_at in Hp.
  assert (Hq : drop j p ≠ []).
  { intros E. apply (f_equal length) in E. rewrite length_drop in E.
    simpl in E. lia. }
  destruct (drop j p) as [|a [|b [|c q]]]; [done| | |].
  - cbn. repeat (case_decide; try done); by subst.
  - cbn. repeat (case_decide; try done); by subst.
  - cbn in *. repeat (case_decide; try done).
Qed.

(** X3: the protocol [SplitSchemeAndHost] returns never holds ["://"];
    when ["://"] occurs in [addr], [addr] is protocol, ["://"], host; when it
    does not, the protocol is empty and the host is [addr]. *)
Theorem SplitSchemeAndHost_parts addr protocol host :
  SplitSchemeAndHost addr = (protocol, host) →
  (∀ j, ¬ occurs_at scheme_sep protocol j) ∧
  ((∃ j, occurs_at scheme_sep addr j) → addr = protocol ++ scheme_sep ++ host) ∧
  ((∀ j, ¬ occurs_at scheme_sep addr j) → protocol = [] ∧ host = addr).
Proof.
  unfold SplitSchemeAndHost.
  destruct (SplitString2 addr scheme_sep) as [[s1 s2] ok] eqn:E.
  assert (Hne : scheme_sep ≠ []) by done.
  destruct ok.
  - intros [= <- <-].
    destruct (SplitString2_ok_inv _ _ _ _ Hne E) as (Hpos & -> & ->).
    split; [by apply take_Index_clean|]. split.
    + intros _. destruct (Index_found _ _ Hpos) as [[t Ht]%HasPrefix_true _].
      rewrite <- (take_drop (Z.to_nat (Index addr scheme_sep)) addr) at 1.
      f_equal. rewrite <- drop_drop, Ht. by rewrite drop_app_length.
    + intros Hno%Index_neg_iff. lia.
  - intros [= <- <-]. split.
    + intros j Hocc. unfold occurs_at in Hocc. by rewrite drop_nil in Hocc.
    + split; [|done]. intros [j Hj].
      exfalso. apply (SplitString2_absent_inv addr scheme_sep Hne) with j;
        [by rewrite E | done].
Qed.

(** X4 (round trip): for a protocol without ["://"],
    [SplitSchemeAndHost] takes protocol, ["://"], host apart again, also when
    the protocol ends in [":"] or [":/"] and when the host holds ["://"]. *)
Theorem SplitSchemeAndHost_join p h :
  (∀ j, ¬ occurs_at scheme_sep p j) →
  SplitSchemeAndHost (p ++ scheme_sep ++ h) = (p, h).
Proof.
  intros Hp. unfold SplitSchemeAndHost, SplitString2.
  rewrite decide_False by done.
  rewrite Index_join by (intros j Hj; by apply scheme_sep_no_overlap).
  destruct (Z.leb_spec 0 (Z.of_nat (length p))); [|lia].
  rewrite Nat2Z.id, take_app_length.
  rewrite app_assoc, <- length_app, drop_app_length. done.
Qed.

Lemma RemoveComment_clean s symbol :
  symbol ≠ [] → ∀ j, ¬ occurs_at symbol (RemoveComment s symbol) j.
Proof.
  intros Hne. unfold RemoveComment.
  destruct (Z.leb_spec 0 (Index s symbol)) as [Hpos|Hneg]; cbn zeta.
  - by apply take_Index_clean.
  - by apply Index_neg_iff.
Qed.

(** X5: for a non-empty [symbol], what [RemoveComment] returns holds no
    [symbol]; it is [s] itself when [s] holds none, and otherwise the part of
    [s], shorter than [s], that [symbol] follows. *)
Theorem RemoveComment_cuts s symbol :
  symbol ≠ [] →
  (∀ j, ¬ occurs_at symbol (RemoveComment s symbol) j) ∧
  (((∀ j, ¬ occurs_at symbol s j) ∧ RemoveComment s symbol = s) ∨
   ((∃ rest, s = RemoveComment s symbol ++ symbol ++ rest) ∧
    length (RemoveComment s symbol) < length s)).
Proof.
  intros Hne. unfold RemoveComment.
  destruct (Z.leb_spec 0 (Index s symbol)) as [Hpos|Hneg]; cbn zeta.
  - split; [by apply take_Index_clean|]. right.
    destruct (Index_found _ _ Hpos) as [Hat _].
    pose proof (occurs_at_bound _ _ _ Hne Hat) as Hb.
    apply HasPrefix_true in Hat as [t Ht]. split.
    + exists t. rewrite <- Ht. by rewrite take_drop.
    + rewrite length_take. destruct symbol; [done | simpl in Hb; lia].
  - pose proof (proj1 (Index_neg_iff s symbol) Hneg) as Hno.
    split; [done|]. by left.
Qed.

(** X6: [RemoveComment] is idempotent, and with the empty symbol it
    returns the empty string, where [SplitString2] keeps all of [s]. *)
Theorem RemoveComment_idempotent s symbol :
  RemoveComment (RemoveComment s symbol) symbol = RemoveComment s symbol ∧
  RemoveComment s [] = [].
Proof.
  split.
  - destruct symbol as [|c symbol].
    + unfold RemoveComment. by destruct s.
    + pose proof (RemoveComment_clean s (c :: symbol) ltac:(done)) as Hclean.
      apply (proj2 (Index_neg_iff _ _)) in Hclean. unfold RemoveComment at 1.
      destruct (Z.leb_spec 0 (Index (RemoveComment s (c :: symbol))
                                (c :: symbol))); [lia | done].
  - unfold RemoveComment. by destruct s.
Qed.

(** ** [SplitLineReg] *)

Lemma find_all_words_words word s :
  no_space word →
  Forall (λ w, w ≠ [] ∧ no_space w) (find_all_words word s).
Proof.
  revert word. induction s as [|b s IH]; intros word Hw; cbn.
  - destruct word; [constructor|]. constructor; [done | constructor].
  - destruct (is_space b) eqn:E.
    + destruct word; [by apply IH|].
      constructor; [done|]. apply IH. constructor.
    + apply IH. apply Forall_app. split; [done|].
      constructor; [done | constructor].
Qed.

Lemma find_all_words_concat word s :
  concat (find_all_words word s) =
  word ++ filter (λ b, is_space b = false) s.
Proof.
  revert word. induction s as [|b s IH]; intros word; cbn [find_all_words].
  - rewrite filter_nil. destruct word; cbn; by rewrite ?app_nil_r.
  - rewrite filter_cons. destruct (is_space b) eqn:E.
    + rewrite decide_False by done.
      destruct word; cbn; by rewrite IH.
    + rewrite decide_True by done. by rewrite IH, <- app_assoc.
Qed.

Lemma find_all_words_at_space word s1 b s2 :
  is_space b = true →
  find_all_words word (s1 ++ b :: s2) =
  find_all_words word s1 ++ find_all_words [] s2.
Proof.
  intros Hb. revert word. induction s1 as [|c s1 IH]; intros word; cbn.
  - rewrite Hb. by destruct word.
  - destruct (is_space c).
    + destruct word; cbn; by rewrite IH.
    + apply IH.
Qed.

Lemma find_all_words_leading sp s :
  all_space sp → find_all_words [] (sp ++ s) = find_all_words [] s.
Proof.
  induction 1 as [|b sp Hb _ IH]; [done|]. cbn. by rewrite Hb.
Qed.

Lemma find_all_words_word word w :
  no_space w → word ++ w ≠ [] → find_all_words word w = [word ++ w].
Proof.
  intros Hw. revert word. induction Hw as [|b w Hb _ IH]; intros word Hne; cbn.
  - rewrite app_nil_r in *. by destruct word.
  - rewrite Hb. rewrite IH; rewrite <- app_assoc; [done|].
    by destruct word.
Qed.

(** X7: every word of [SplitLineReg] is non-empty and free of blanks,
    and the words put together are the bytes of [s] outside the blanks, in
    their order: no byte is lost or invented. *)
Theorem SplitLineReg_words s :
  Forall (λ w, w ≠ [] ∧ no_space w) (SplitLineReg s) ∧
  concat (SplitLineReg s) = filter (λ b, is_space b = false) s.
Proof.
  split.
  - apply find_all_words_words. constructor.
  - apply find_all_words_concat.
Qed.

(** X8: [SplitLineReg] returns no word exactly when [s] has blanks
    only, the empty string included. *)
Theorem SplitLineReg_empty s : SplitLineReg s = [] ↔ all_space s.
Proof.
  split.
  - intros H. pose proof (find_all_words_concat [] s) as Hc.
    fold (SplitLineReg s) in Hc. rewrite H in Hc. cbn in Hc.
    apply Forall_forall. intros b Hb.
    destruct (is_space b) eqn:E; [done|].
    assert (Hin : b ∈ filter (λ b, is_space b = false) s)
      by (by apply list_elem_of_filter).
    rewrite <- Hc in *. by apply elem_of_nil in Hin.
  - intros H. unfold SplitLineReg.
    rewrite <- (app_nil_r s). by rewrite find_all_words_leading.
Qed.

(** X9: [SplitLineReg] works on each side of a run of blanks alone:
    the words of [s1 ++ sp ++ s2] are those of [s1], then those of [s2]. *)
Theorem SplitLineReg_at_space s1 sp s2 :
  sp ≠ [] → all_space sp →
  SplitLineReg (s1 ++ sp ++ s2) = SplitLineReg s1 ++ SplitLineReg s2.
Proof.
  intros Hne Hsp. unfold SplitLineReg.
  destruct Hsp as [|b sp Hb Hsp]; [done|]. cbn [app].
  rewrite find_all_words_at_space by done.
  by rewrite find_all_words_leading.
Qed.

(** X10 (round trip): words that are non-empty and free of blanks, each
    followed by a space, are split into the same words. *)
Theorem SplitLineReg_join ws :
  Forall (λ w, w ≠ [] ∧ no_space w) ws →
  SplitLineReg (concat ((λ w, w ++ [x20]) <$> ws)) = ws.
Proof.
  unfold SplitLineReg. induction 1 as [|w ws [Hne Hw] _ IH]; [done|].
  cbn [fmap list_fmap concat]. rewrite <- app_assoc. cbn [app].
  rewrite find_all_words_at_space by done.
  rewrite IH. by rewrite find_all_words_word.
Qed.

(** ** More on the key derivation *)

(** ** Steps that leave the pool alone *)

Lemma quiet_ret {A} (a : A) : quiet (mret a).
Proof. by intros st r st' [= <- <-]. Qed.

Lemma quiet_bind {A B} (c : M A) (k : A → M B) :
  quiet c → (∀ a, quiet (k a)) → quiet (c ≫= k).
Proof.
  intros Hc Hk st r st'. unfold mbind, M_bind.
  destruct (c st) as [[a|] st1] eqn:E.
  - intros Hr. destruct (Hc _ _ _ E) as (Ho & Hf & Hl).
    destruct (Hk a _ _ _ Hr) as (Ho' & Hf' & Hl').
    repeat split; congruence.
  - intros [= <- <-]. by eapply Hc.
Qed.

Lemma quiet_index_set s i v : quiet (index_set s i v).
Proof.
  intros st r st'. unfold index_set.
  case_decide; [|by intros [= <- <-]].
  destruct (sl_data s) as [[b off]|]; [|by intros [= <- <-]].
  destruct (heap st !! b); by intros [= <- <-].
Qed.

Lemma quiet_alloc bs : quiet (alloc bs).
Proof. by intros st r st' [= <- <-]. Qed.

Lemma quiet_deref s : quiet (deref s).
Proof.
  intros st r st'. unfold deref.
  destruct (slice_bytes st s); by intros [= <- <-].
Qed.

Lemma quiet_Grow sb n : quiet (Grow sb n).
Proof.
  unfold Grow. case_decide; [|apply quiet_ret].
  apply quiet_bind; [apply quiet_deref|]. intros old.
  apply quiet_bind; [apply quiet_alloc|]. intros b. apply quiet_ret.
Qed.

Lemma quiet_Write sb p : quiet (Write sb p).
Proof.
  unfold Write. destruct (sb_blk sb) as [b|].
  - case_decide.
    + intros st r st'. destruct (heap st !! b); by intros [= <- <-].
    + apply quiet_bind; [apply quiet_deref|]. intros old.
      apply quiet_bind; [apply quiet_alloc|]. intros b'. apply quiet_ret.
  - case_decide; [apply quiet_ret|].
    apply quiet_bind; [apply quiet_alloc|]. intros b'. apply quiet_ret.
Qed.

Section KeyExtras.
Context {Msg : Type}.
Variable wire_format : Msg → error + list byte.
Variable PackBuffer : Msg → M (slice * option Buffer * option error).

(** X11: once the pooled serializer has handed out a buffer with no
    error, [GetMsgKeyWithBytesSalt] calls [Release] on it exactly once and
    makes no other call to the pool, whether it returns or panics. *)
Theorem GetMsgKeyWithBytesSalt_releases_once m salt st wire buf st1 r st' :
  PackBuffer m st = (Ret (wire, Some buf, None), st1) →
  GetMsgKeyWithBytesSalt PackBuffer m salt st = (r, st') →
  released st' = released st1 ++ [buf] ∧
  pool_out st' = filter (.≠ buf) (pool_out st1) ∧
  pool_free st' = buf :: pool_free st1.
Proof.
  intros HP. unfold GetMsgKeyWithBytesSalt, mbind at 1, M_bind at 1.
  rewrite HP. unfold defer.
  match goal with |- context [let '(_, _) := ?body st1 in _] =>
    assert (Hq : quiet body); [|destruct (body st1) as [rb st2] eqn:Eb] end.
  { apply quiet_bind; [apply quiet_index_set|]. intros _.
    apply quiet_bind; [apply quiet_index_set|]. intros _.
    apply quiet_bind; [apply quiet_Grow|]. intros sb.
    apply quiet_bind; [apply quiet_deref|]. intros w.
    apply quiet_bind; [apply quiet_Write|]. intros sb1.
    apply quiet_bind; [apply quiet_Write|]. intros sb2.
    apply quiet_ret. }
  destruct (Hq _ _ _ Eb) as (Ho & Hf & Hr). cbn. intros [= _ <-]. cbn.
  by rewrite Ho, Hf, Hr.
Qed.

(** X12: on at least two wire bytes [GetMsgKeyWithBytesSalt] makes one
    allocation, the key's, of [len(wire) + len(salt)] bytes, and leaves the
    pooled wire buffer with its id zeroed in place. *)
Theorem GetMsgKeyWithBytesSalt_one_allocation m salt st wire buf st1 w :
  PackBuffer m st = (Ret (wire, Some buf, None), st1) →
  slice_bytes st1 wire = Some w → 2 ≤ length w →
  ∃ k st' kb,
    GetMsgKeyWithBytesSalt PackBuffer m salt st = (Ret (k, None), st') ∧
    str_data k = Some (kb, 0) ∧ str_len k = length w + length salt ∧
    (kb ∉ dom (heap st1)) ∧ (dom (heap st') = {[kb]} ∪ dom (heap st1)) ∧
    slice_bytes st' wire = Some (set_id x00 x00 w).
Proof.
  intros HP Hs Hlen.
  pose proof (load_length _ _ _ _ Hs) as Hl.
  unfold slice_bytes in Hs.
  destruct (sl_data wire) as [[wb off]|] eqn:Hd.
  2:{ simpl in Hs. case_decide; [lia|done]. }
  apply load_Some in Hs as (blk & Hb & Hle & ->).
  rewrite (GetMsgKeyWithBytesSalt_run PackBuffer m salt st wire buf st1 wb off
             blk HP Hd Hb Hle) by lia.
  cbv zeta.
  set (blk' := <[off + 1 := x00]> (<[off + 0 := x00]> blk)).
  set (h1 := <[wb := blk']> (heap st1)).
  assert (Hdom : dom h1 = dom (heap st1)).
  { unfold h1. apply dom_insert_lookup_L. eauto. }
  assert (Hkb : fresh (dom h1) ≠ wb).
  { intros E. apply (is_fresh (dom h1)). rewrite E, Hdom.
    apply elem_of_dom. eauto. }
  eexists _, _, (fresh (dom h1)). split; [done|].
  split; [done|]. split; [cbn; lia|]. split; [|split].
  - rewrite <- Hdom. apply is_fresh.
  - cbn [heap]. by rewrite dom_insert_L, Hdom.
  - unfold slice_bytes. rewrite Hd. cbn [heap].
    rewrite load_insert_ne by done. unfold h1.
    rewrite load_insert_eq by (unfold blk'; rewrite !length_insert; lia).
    unfold blk'. by rewrite set_id_view by lia.
Qed.

Lemma set_id_same_except_id hi lo w1 w2 :
  2 ≤ length w1 → 2 ≤ length w2 →
  set_id hi lo w1 = set_id hi lo w2 → same_except_id w1 w2.
Proof.
  intros H1 H2 Heq. split.
  - apply (f_equal length) in Heq. by rewrite !set_id_length in Heq.
  - rewrite !set_id_cons in Heq by done. congruence.
Qed.

(** X13 (no false hits): under one salt, equal keys come only from wire
    encodings of the same length that agree from the third byte on, through
    [GetMsgKey] and through [GetMsgKeyWithBytesSalt]. *)
Theorem same_key_same_message m1 m2 w1 w2 v1 v2 salt16 salt st1 st2 st1' st2' :
  wire_format m1 = inr w1 → wire_format m2 = inr w2 →
  2 ≤ length w1 → 2 ≤ length w2 →
  pooled_wire PackBuffer m1 st1' = Some (inr v1) →
  pooled_wire PackBuffer m2 st2' = Some (inr v2) →
  2 ≤ length v1 → 2 ≤ length v2 →
  (observe (GetMsgKey wire_format m1 salt16 st1) =
     observe (GetMsgKey wire_format m2 salt16 st2) → same_except_id w1 w2) ∧
  (observe (GetMsgKeyWithBytesSalt PackBuffer m1 salt st1') =
     observe (GetMsgKeyWithBytesSalt PackBuffer m2 salt st2') →
   same_except_id v1 v2).
Proof.
  intros H1 H2 L1 L2 P1 P2 K1 K2. split.
  - rewrite !GetMsgKey_deriveKey, H1, H2. unfold deriveKey.
    rewrite !decide_True by done. rewrite !app_nil_r. intros [= Heq].
    by eapply set_id_same_except_id.
  - rewrite (GetMsgKeyWithBytesSalt_deriveKey PackBuffer m1 salt st1' _ P1).
    rewrite (GetMsgKeyWithBytesSalt_deriveKey PackBuffer m2 salt st2' _ P2).
    unfold deriveKey. rewrite !decide_True by done. intros [= Heq].
    apply app_inv_tail in Heq. by eapply set_id_same_except_id.
Qed.

Lemma byte_of_Z_inj a b :
  byte_of_Z a = byte_of_Z b → (a mod 256 = b mod 256)%Z.
Proof.
  intros H. apply (f_equal Z_of_byte) in H. by rewrite !Z_of_byte_of_Z in H.
Qed.

(** X14: for one message, two different uint16 salts give [GetMsgKey]
    two different keys. *)
Theorem GetMsgKey_salts_distinct m w s1 s2 st1 st2 :
  wire_format m = inr w → 2 ≤ length w →
  (0 ≤ s1 < 65536)%Z → (0 ≤ s2 < 65536)%Z → s1 ≠ s2 →
  observe (GetMsgKey wire_format m s1 st1) ≠
    observe (GetMsgKey wire_format m s2 st2).
Proof.
  intros Hw Hlen R1 R2 Hne.
  rewrite !GetMsgKey_deriveKey, Hw. unfold deriveKey.
  rewrite !decide_True by done. rewrite !app_nil_r.
  rewrite !set_id_cons by done. intros [= Hhi Hlo]. apply Hne.
  apply byte_of_Z_inj in Hhi, Hlo.
  rewrite !Z.shiftr_div_pow2 in Hhi by lia. change (2 ^ 8)%Z with 256%Z in Hhi.
  rewrite !Z.mod_small in Hhi
    by (split; [apply Z.div_pos; lia | apply Z.div_lt_upper_bound; lia]).
  rewrite (Z.div_mod s1 256), (Z.div_mod s2 256) by lia. congruence.
Qed.

Lemma big_endian_inj n a b :
  (0 ≤ a < 256 ^ Z.of_nat n)%Z → (0 ≤ b < 256 ^ Z.of_nat n)%Z →
  big_endian n a = big_endian n b → a = b.
Proof.
  intros Ha Hb H. apply (f_equal from_big_endian) in H.
  by rewrite !from_big_endian_big_endian in H.
Qed.

(** X15: for one message, two different int64 salts give
    [GetMsgKeyWithInt64Salt] two different keys. *)
Theorem GetMsgKeyWithInt64Salt_salts_distinct m w N1 N2 st1 st2 :
  pooled_wire PackBuffer m st1 = Some (inr w) →
  pooled_wire PackBuffer m st2 = Some (inr w) →
  2 ≤ length w →
  (- 2 ^ 63 ≤ N1 < 2 ^ 63)%Z → (- 2 ^ 63 ≤ N2 < 2 ^ 63)%Z → N1 ≠ N2 →
  observe (GetMsgKeyWithInt64Salt PackBuffer m N1 st1) ≠
    observe (GetMsgKeyWithInt64Salt PackBuffer m N2 st2).
Proof.
  intros P1 P2 Hlen R1 R2 Hne. unfold GetMsgKeyWithInt64Salt.
  rewrite !PutUint64_big_endian.
  rewrite (GetMsgKeyWithBytesSalt_deriveKey PackBuffer m _ st1 _ P1).
  rewrite (GetMsgKeyWithBytesSalt_deriveKey PackBuffer m _ st2 _ P2).
  unfold deriveKey. rewrite !decide_True by done.
  set (b1 := big_endian 8 (uint64 N1)). set (b2 := big_endian 8 (uint64 N2)).
  intros [= Heq]. apply app_inv_head in Heq. unfold b1, b2 in Heq. apply Hne.
  assert (Hu : ∀ N, (0 ≤ uint64 N < 256 ^ Z.of_nat 8)%Z).
  { intros N. unfold uint64. change (256 ^ Z.of_nat 8)%Z with (2 ^ 64)%Z.
    apply Z.mod_pos_bound. lia. }
  apply big_endian_inj in Heq; [|done|done].
  unfold uint64 in Heq.
  destruct (Z.lt_ge_cases N1 0), (Z.lt_ge_cases N2 0).
  - rewrite <- (Z.mod_add N1 1), <- (Z.mod_add N2 1) in Heq by lia.
    rewrite !Z.mod_small in Heq by lia. lia.
  - rewrite <- (Z.mod_add N1 1) in Heq by lia.
    rewrite !Z.mod_small in Heq by lia. lia.
  - rewrite <- (Z.mod_add N2 1) in Heq by lia.
    rewrite !Z.mod_small in Heq by lia. lia.
  - rewrite !Z.mod_small in Heq by lia. lia.
Qed.

End KeyExtras.

(** X16: the string of [BytesToStringUnsafe] reads the bytes of the
    slice and is not a copy: a store through the slice shows in the string. *)
Theorem BytesToStringUnsafe_shares b bs i v st st' :
  slice_bytes st b = Some bs →
  index_set b i v st = (Ret (), st') →
  string_bytes st (BytesToStringUnsafe b) = Some bs ∧
  string_bytes st' (BytesToStringUnsafe b) = Some (<[i := v]> bs).
Proof.
  intros Hs Hset. split; [done|].
  unfold string_bytes, BytesToStringUnsafe, slice_bytes in *. cbn.
  unfold index_set in Hset.
  destruct (decide (i < sl_len b)) as [Hi|]; [|done].
  destruct (sl_data b) as [[blk off]|] eqn:Hd; [|done].
  apply load_Some in Hs as (content & Hc & Hle & ->).
  unfold Buffer in *. rewrite Hc in Hset. injection Hset as <-. cbn [heap].
  rewrite load_insert_eq by (rewrite length_insert; lia).
  by rewrite view_insert.
Qed.

Section GetMsgKeyFrame.
Context {Msg : Type}.
Variable wire_format : Msg → error + list byte.
Variable PackBuffer : Msg → M (slice * option Buffer * option error).

(** X17: [GetMsgKey] makes no call to the pool and changes no allocation
    that was there before; the key it returns lies in an allocation made by
    the call. *)
Theorem GetMsgKey_owned m salt st r st' :
  GetMsgKey wire_format m salt st = (r, st') →
  pool_out st' = pool_out st ∧ pool_free st' = pool_free st ∧
  released st' = released st ∧
  (∀ b, b ∈ dom (heap st) → heap st' !! b = heap st !! b) ∧
  (∀ k, r = Ret (k, None) →
        ∃ b, str_data k = Some (b, 0) ∧ b ∉ dom (heap st)).
Proof.
  unfold GetMsgKey, Pack, mbind, M_bind.
  destruct (wire_format m) as [e|w].
  - intros [= <- <-]. repeat split; first [done | by intros k [=]].
  - cbn. set (b := fresh (dom (heap st))).
    assert (Hb : b ∉ dom (heap st)) by apply is_fresh.
    assert (Hother : ∀ b' bs, b' ∈ dom (heap st) →
              (<[b := bs]> (heap st)) !! b' = heap st !! b').
    { intros b' bs Hb'. apply lookup_insert_ne. by intros ->. }
    unfold index_set. cbn.
    destruct (decide (0 < length w)); cbn.
    2:{ intros [= <- <-]. cbn.
        repeat split;
          first [done | by intros k [=] | by intros; apply Hother]. }
    rewrite lookup_insert_eq. cbn. rewrite insert_insert_eq.
    destruct (decide (1 < length w)); cbn.
    2:{ intros [= <- <-]. cbn.
        repeat split;
          first [done | by intros k [=] | by intros; apply Hother]. }
    rewrite lookup_insert_eq. cbn. rewrite insert_insert_eq.
    intros [= <- <-]. cbn.
    repeat split; first [done | by intros; apply Hother | idtac].
    intros k [= <-]. by exists b.
Qed.

(** X18: the key of [GetMsgKey] keeps its bytes through any number of
    later calls of [GetMsgKeyWithBytesSalt], for every pooled serializer that
    meets [pool_contract]: it keeps the pool's buffers allocated, leaves each
    allocation outside the pool as it is and outside the pool, and what it
    returns on success, the buffer and the wire view, is pool memory. *)
Theorem GetMsgKey_key_survives m salt st k st1 :
  pool_contract PackBuffer → pool_wf st →
  GetMsgKey wire_format m salt st = (Ret (k, None), st1) →
  ∃ key, string_bytes st1 k = Some key ∧
    ∀ st2, rtc (later_call PackBuffer) st1 st2 →
           string_bytes st2 k = Some key.
Proof.
  intros HC Hwf Hrun.
  unfold GetMsgKey, Pack, mbind, M_bind in Hrun.
  destruct (wire_format m) as [e|w] eqn:Hw; [done|].
  destruct (decide (2 ≤ length w)) as [Hlen|Hlen].
  2:{ pose proof (GetMsgKey_short wire_format m salt st w Hw) as Hp.
      unfold observe, GetMsgKey, Pack, mbind, M_bind in Hp. rewrite Hw in Hp.
      rewrite Hrun in Hp. cbn in Hp. by specialize (Hp ltac:(lia)). }
  pose proof (GetMsgKey_run wire_format m salt st w Hw Hlen) as Hr.
  unfold GetMsgKey, Pack, mbind, M_bind in Hr. rewrite Hw in Hr.
  cbv zeta in Hr. rewrite Hr in Hrun. injection Hrun as <- <-.
  set (b := fresh (dom (heap st))).
  set (key := set_id (byte_of_Z (Z.shiftr salt 8)) (byte_of_Z salt) w).
  set (st1 := mkState _ _ _ _).
  assert (Hkey : length key = length w) by apply set_id_length.
  assert (Hread : ∀ s, heap s !! b = Some key →
            string_bytes s (GoString (Some (b, 0)) (length w)) = Some key).
  { intros s Hl. unfold string_bytes. cbn. rewrite Hl.
    rewrite decide_True by lia. by rewrite drop_0, take_ge by lia. }
  assert (Hb : b ∉ dom (heap st)) by apply is_fresh.
  assert (Hwf1 : pool_wf st1).
  { intros x Hx. cbn. rewrite dom_insert. apply elem_of_union_r.
    apply Hwf. exact Hx. }
  assert (Hnot : ¬ pool_owned st1 b).
  { intros Ho. apply Hb, Hwf. exact Ho. }
  exists key. split; [apply Hread; cbn; apply lookup_insert_eq|].
  intros st2 Hrtc.
  destruct (private_survives_calls PackBuffer st1 st2 b key HC Hrtc)
    as (_ & _ & Hl); [done | done | cbn; apply lookup_insert_eq |].
  by apply Hread.
Qed.

End GetMsgKeyFrame.

(** ** [GetAddrFromAddr] *)

(** X19: the address [GetAddrFromAddr] returns is valid exactly when
    [GetIPFromAddr] finds an IP of 4 or 16 bytes, and then has the bytes of
    that IP unchanged; other types and the nil interface give the zero
    address. *)
Theorem GetAddrFromAddr_valid addr a :
  GetAddrFromAddr addr = Ret a →
  (IsValid a = true ↔
   ∃ ip, GetIPFromAddr addr = Ret ip ∧ (length ip = 4 ∨ length ip = 16)) ∧
  (IsValid a = true → GetIPFromAddr addr = Ret (AsSlice a)) ∧
  (addr = addrOther ∨ addr = addrNil → a = Addr_zero).
Proof.
  unfold GetAddrFromAddr.
  destruct (GetIPFromAddr addr) as [ip|] eqn:E; [|done].
  unfold AddrFromSlice.
  destruct (decide (length ip = 4)) as [H4|H4];
    [|destruct (decide (length ip = 16)) as [H16|H16]];
    intros [= <-]; cbn.
  - split; [split; eauto|]. split; [done|].
    intros [->| ->]; cbn in E; injection E as <-; done.
  - split; [split; eauto|]. split; [done|].
    intros [->| ->]; cbn in E; injection E as <-; done.
  - split; [|done]. split; [done|].
    intros (ip' & [= <-] & [?|?]); done.
Qed.

Lemma GetAddrFromAddr_panics addr :
  GetAddrFromAddr addr = Panic ↔
  addr = addrTCP None ∨ addr = addrUDP None ∨ addr = addrIPNet None ∨
  addr = addrIPAddr None.
Proof.
  unfold GetAddrFromAddr.
  destruct addr as [[v|]|[v|]|[v|]|[v|]| |]; cbn;
    try destruct (AddrFromSlice _); split; try done;
    try (intros [|[|[|]]]; done); eauto.
Qed.

(** ** [LoadCertPool] *)

Section LoadCertPoolProofs.
Context {CertPool : Type}.
Variable NewCertPool : CertPool.
Variable AppendCertsFromPEM : CertPool → list byte → CertPool * bool.
Variable ReadFile : list byte → error + list byte.

Lemma load_certs_success certs p0 read p tr :
  load_certs AppendCertsFromPEM ReadFile certs p0 read = ((Some p, None), tr) ↔
  pool_of AppendCertsFromPEM ReadFile certs p0 = Some p ∧ tr = read ++ certs.
Proof.
  revert p0 read. induction certs as [|c certs IH]; intros p0 read; cbn.
  - rewrite app_nil_r. split; [by intros [= -> ->] | by intros [[= ->] ->]].
  - destruct (ReadFile c) as [e|b]; [split; [done | by intros [? _]]|].
    destruct (AppendCertsFromPEM p0 b) as [p1 [|]].
    + rewrite IH, <- app_assoc. done.
    + split; [done | by intros [? _]].
Qed.

Lemma load_certs_app good rest p0 p read :
  pool_of AppendCertsFromPEM ReadFile good p0 = Some p →
  load_certs AppendCertsFromPEM ReadFile (good ++ rest) p0 read =
    load_certs AppendCertsFromPEM ReadFile rest p (read ++ good).
Proof.
  revert p0 read. induction good as [|c good IH]; intros p0 read; cbn.
  - intros [= ->]. by rewrite app_nil_r.
  - destruct (ReadFile c) as [e|b]; [done|].
    destruct (AppendCertsFromPEM p0 b) as [p1 [|]]; [|done].
    intros H. rewrite (IH _ _ H), <- app_assoc. done.
Qed.

Lemma load_certs_result certs p0 read r tr :
  load_certs AppendCertsFromPEM ReadFile certs p0 read = (r, tr) →
  (∃ p, r = (Some p, None) ∧ tr = read ++ certs ∧
        pool_of AppendCertsFromPEM ReadFile certs p0 = Some p) ∨
  (∃ err good bad rest p,
     r = (None, Some err) ∧ certs = good ++ bad :: rest ∧
     tr = read ++ good ++ [bad] ∧
     pool_of AppendCertsFromPEM ReadFile good p0 = Some p ∧
     cert_fails AppendCertsFromPEM ReadFile p bad err).
Proof.
  revert p0 read. induction certs as [|c certs IH]; intros p0 read; cbn.
  - intros [= <- <-]. left. eexists. by rewrite app_nil_r.
  - destruct (ReadFile c) as [e|b] eqn:ER.
    + intros [= <- <-]. right. exists e, [], c, certs, p0.
      repeat split; try done. by left.
    + destruct (AppendCertsFromPEM p0 b) as [p1 [|]] eqn:EA.
      * intros H. destruct (IH _ _ H) as [(p & -> & -> & Hp) |
          (err & good & bad & rest & p & -> & -> & -> & Hp & Hf)].
        -- left. eexists. by rewrite <- app_assoc.
        -- right. exists err, (c :: good), bad, rest, p.
           rewrite <- !app_assoc. repeat split; try done.
           cbn. by rewrite ER, EA.
      * intros [= <- <-]. right.
        exists (no_certificate_error c), [], c, certs, p0.
        repeat split; try done.
        right. exists b. by rewrite EA.
Qed.

(** X20: [LoadCertPool] returns either the pool made of all files, with
    no error, having read every file in order; or no pool and the error of
    the first file that cannot be read or holds no certificate, having read
    the files up to that one and none after it. *)
Theorem LoadCertPool_result certs r tr :
  LoadCertPool NewCertPool AppendCertsFromPEM ReadFile certs = (r, tr) →
  (∃ p, r = (Some p, None) ∧ tr = certs ∧
        pool_of AppendCertsFromPEM ReadFile certs NewCertPool = Some p) ∨
  (∃ err good bad rest p,
     r = (None, Some err) ∧ certs = good ++ bad :: rest ∧
     tr = good ++ [bad] ∧
     pool_of AppendCertsFromPEM ReadFile good NewCertPool = Some p ∧
     cert_fails AppendCertsFromPEM ReadFile p bad err).
Proof. apply load_certs_result. Qed.

(** X21: when the files before [bad] load and [bad] fails,
    [LoadCertPool] returns no pool and the error of [bad], the read error as
    it is or "no certificate was successfully parsed in" with the file's
    name, and reads no file after [bad]. *)
Theorem LoadCertPool_first_failure good bad rest p err :
  pool_of AppendCertsFromPEM ReadFile good NewCertPool = Some p →
  cert_fails AppendCertsFromPEM ReadFile p bad err →
  LoadCertPool NewCertPool AppendCertsFromPEM ReadFile (good ++ bad :: rest) =
    ((None, Some err), good ++ [bad]).
Proof.
  intros Hgood Hbad. unfold LoadCertPool.
  rewrite (load_certs_app good (bad :: rest) _ p) by done. cbn.
  destruct Hbad as [-> | (b & -> & Hno & ->)]; [done|].
  destruct (AppendCertsFromPEM p b) as [p1 ok]. cbn in Hno. by subst ok.
Qed.

Lemma LoadCertPool_all_good certs p :
  pool_of AppendCertsFromPEM ReadFile certs NewCertPool = Some p →
  LoadCertPool NewCertPool AppendCertsFromPEM ReadFile certs =
    ((Some p, None), certs).
Proof. intros H. apply load_certs_success. done. Qed.

End LoadCertPoolProofs.

(** ** Scenarios *)

Lemma SplitString2_not_found_witness :
  let s := (["a"; "b"; "c"])%byte in
  let symbol := (["#"])%byte in
  ((SplitString2 s symbol).2 = false ↔ ∀ j, ¬ occurs_at symbol s j) ∧
  ((SplitString2 s symbol).2 = false → SplitString2 s symbol = ([], [], false)).
Proof.
  intros s symbol. apply (SplitString2_not_found s symbol). discriminate.
Defined.

Lemma SplitString2_join_witness :
  SplitString2 ((["k"])%byte ++ (["="])%byte ++ (["v"; "="; "w"])%byte)
    (["="])%byte = ((["k"])%byte, (["v"; "="; "w"])%byte, true).
Proof.
  apply (SplitString2_join (["k"])%byte (["v"; "="; "w"])%byte (["="])%byte).
  - discriminate.
  - intros j Hj. simpl in Hj. assert (j = 0) as -> by lia.
    unfold occurs_at. vm_compute. discriminate.
Defined.

Lemma SplitSchemeAndHost_parts_witness :
  let addr := (["t"; "c"; "p"; ":"; "/"; "/"; "h"; ":"; "5"; "3"])%byte in
  let protocol := (["t"; "c"; "p"])%byte in
  let host := (["h"; ":"; "5"; "3"])%byte in
  (∀ j, ¬ occurs_at scheme_sep protocol j) ∧
  ((∃ j, occurs_at scheme_sep addr j) → addr = protocol ++ scheme_sep ++ host) ∧
  ((∀ j, ¬ occurs_at scheme_sep addr j) → protocol = [] ∧ host = addr).
Proof.
  intros addr protocol host.
  apply (SplitSchemeAndHost_parts addr protocol host). reflexivity.
Defined.

Lemma SplitSchemeAndHost_join_witness :
  SplitSchemeAndHost ((["t"; "c"; "p"])%byte ++ scheme_sep
                        ++ (["h"; ":"; "/"; "/"; "x"])%byte) =
    ((["t"; "c"; "p"])%byte, (["h"; ":"; "/"; "/"; "x"])%byte).
Proof.
  apply (SplitSchemeAndHost_join (["t"; "c"; "p"])%byte
           (["h"; ":"; "/"; "/"; "x"])%byte).
  intros j. unfold occurs_at.
  do 4 (destruct j as [|j]; [vm_compute; discriminate|]).
  vm_compute. discriminate.
Defined.

Lemma RemoveComment_cuts_witness :
  let s := (["a"; " "; "#"; "b"; "#"; "c"])%byte in
  let symbol := (["#"])%byte in
  (∀ j, ¬ occurs_at symbol (RemoveComment s symbol) j) ∧
  (((∀ j, ¬ occurs_at symbol s j) ∧ RemoveComment s symbol = s) ∨
   ((∃ rest, s = RemoveComment s symbol ++ symbol ++ rest) ∧
    length (RemoveComment s symbol) < length s)).
Proof.
  intros s symbol. apply (RemoveComment_cuts s symbol). discriminate.
Defined.

Lemma SplitLineReg_at_space_witness :
  SplitLineReg ((["a"; " "; "b"])%byte ++ (["009"; " "])%byte
                  ++ (["c"])%byte) =
  SplitLineReg (["a"; " "; "b"])%byte ++ SplitLineReg (["c"])%byte.
Proof.
  apply (SplitLineReg_at_space (["a"; " "; "b"])%byte (["009"; " "])%byte
           (["c"])%byte).
  - discriminate.
  - repeat constructor.
Defined.

Lemma SplitLineReg_join_witness :
  let ws := [(["a"; "b"])%byte; (["c"])%byte] in
  SplitLineReg (concat ((λ w, w ++ [x20]) <$> ws)) = ws.
Proof.
  intros ws. apply (SplitLineReg_join ws).
  repeat constructor; discriminate.
Defined.

(** The short wire: the id stores panic, the buffer is released all the
    same. *)
Lemma GetMsgKeyWithBytesSalt_releases_once_witness :
  let PB := pool.PackBuffer raw_wire in
  let m : raw_msg := inr [x12] in
  let r := GetMsgKeyWithBytesSalt PB m [xff] empty_state in
  r.1 = Panic ∧
  released r.2 = released (PB m empty_state).2 ++ [0] ∧
  pool_out r.2 = filter (.≠ 0) (pool_out (PB m empty_state).2) ∧
  pool_free r.2 = 0 :: pool_free (PB m empty_state).2.
Proof.
  intros PB m r. split; [vm_compute; reflexivity|].
  apply (GetMsgKeyWithBytesSalt_releases_once PB m [xff] empty_state
           (Slice (Some (0, 0)) 1) 0 (PB m empty_state).2 r.1 r.2).
  - vm_compute; reflexivity.
  - vm_compute; reflexivity.
Defined.

Lemma GetMsgKeyWithBytesSalt_one_allocation_witness :
  let PB := pool.PackBuffer raw_wire in
  let m : raw_msg := inr [x12; x34; x00; x07] in
  let wire := Slice (Some (0, 0)) 4 in
  let st1 := (PB m empty_state).2 in
  ∃ k st' kb,
    GetMsgKeyWithBytesSalt PB m [xff] empty_state = (Ret (k, None), st') ∧
    str_data k = Some (kb, 0) ∧ str_len k = 4 + 1 ∧
    (kb ∉ dom (heap st1)) ∧ (dom (heap st') = {[kb]} ∪ dom (heap st1)) ∧
    slice_bytes st' wire = Some (set_id x00 x00 [x12; x34; x00; x07]).
Proof.
  intros PB m wire st1.
  apply (GetMsgKeyWithBytesSalt_one_allocation PB m [xff] empty_state wire 0
           st1 [x12; x34; x00; x07]).
  - vm_compute; reflexivity.
  - vm_compute; reflexivity.
  - simpl; lia.
Defined.

Lemma same_key_same_message_witness :
  let PB := pool.PackBuffer raw_wire in
  let w1 := [x12; x34; x01; x00; x07] in
  let w2 := [xab; xcd; x01; x00; x07] in
  (observe (GetMsgKey raw_wire (inr w1) 9 empty_state) =
     observe (GetMsgKey raw_wire (inr w2) 9 empty_state) →
   same_except_id w1 w2) ∧
  (observe (GetMsgKeyWithBytesSalt PB (inr w1) [x41] empty_state) =
     observe (GetMsgKeyWithBytesSalt PB (inr w2) [x41] empty_state) →
   same_except_id w1 w2).
Proof.
  intros PB w1 w2.
  apply (same_key_same_message raw_wire PB (inr w1) (inr w2) w1 w2 w1 w2).
  - reflexivity.
  - reflexivity.
  - simpl; lia.
  - simpl; lia.
  - vm_compute; reflexivity.
  - vm_compute; reflexivity.
  - simpl; lia.
  - simpl; lia.
Defined.

Lemma GetMsgKey_salts_distinct_witness :
  let w := [x12; x34; x01; x00; x07] in
  observe (GetMsgKey raw_wire (inr w) 0x0100 empty_state) ≠
    observe (GetMsgKey raw_wire (inr w) 0x0001 empty_state).
Proof.
  intros w.
  apply (GetMsgKey_salts_distinct raw_wire (inr w) w); try lia.
  - reflexivity.
  - simpl; lia.
Defined.

Lemma GetMsgKeyWithInt64Salt_salts_distinct_witness :
  let PB := pool.PackBuffer raw_wire in
  let w := [x12; x34; x01; x00; x07] in
  observe (GetMsgKeyWithInt64Salt PB (inr w) (-1) empty_state) ≠
    observe (GetMsgKeyWithInt64Salt PB (inr w) 0 empty_state).
Proof.
  intros PB w.
  apply (GetMsgKeyWithInt64Salt_salts_distinct PB (inr w) w); try lia.
  - vm_compute; reflexivity.
  - vm_compute; reflexivity.
  - simpl; lia.
Defined.

Lemma BytesToStringUnsafe_shares_witness :
  let st := mkState {[0 := [x61; x62; x63]]} [] [] [] in
  let st' := mkState {[0 := [x61; x7a; x63]]} [] [] [] in
  let b := Slice (Some (0, 0)) 3 in
  string_bytes st (BytesToStringUnsafe b) = Some [x61; x62; x63] ∧
  string_bytes st' (BytesToStringUnsafe b)
    = Some (<[1 := x7a]> [x61; x62; x63]).
Proof.
  intros st st' b.
  apply (BytesToStringUnsafe_shares b [x61; x62; x63] 1 x7a st st').
  - vm_compute; reflexivity.
  - vm_compute; reflexivity.
Defined.

Lemma GetMsgKey_owned_witness :
  let st := (GetMsgKeyWithBytesSalt (pool.PackBuffer raw_wire)
               (inr [x00; x00; x09]) [] empty_state).2 in
  let run := GetMsgKey raw_wire (inr [x12; x34; x01]) 7 st in
  pool_out run.2 = pool_out st ∧ pool_free run.2 = pool_free st ∧
  released run.2 = released st ∧
  (∀ b, b ∈ dom (heap st) → heap run.2 !! b = heap st !! b) ∧
  (∀ k, run.1 = Ret (k, None) →
        ∃ b, str_data k = Some (b, 0) ∧ b ∉ dom (heap st)).
Proof.
  intros st run.
  apply (GetMsgKey_owned raw_wire (inr [x12; x34; x01]) 7 st run.1 run.2).
  vm_compute; reflexivity.
Defined.

Lemma GetMsgKey_key_survives_witness :
  let PB := pool.PackBuffer raw_wire in
  let run := GetMsgKey raw_wire (inr [x12; x34; x01]) 7 empty_state in
  let k := GoString (Some (0, 0)) 3 in
  ∃ key, string_bytes run.2 k = Some key ∧
    ∀ st2, rtc (later_call PB) run.2 st2 → string_bytes st2 k = Some key.
Proof.
  intros PB run k.
  apply (GetMsgKey_key_survives raw_wire PB (inr [x12; x34; x01]) 7
           empty_state k run.2).
  - apply pool_PackBuffer_contract.
  - apply empty_state_wf.
  - vm_compute; reflexivity.
Defined.

Lemma GetAddrFromAddr_valid_witness :
  let ip := [x7f; x00; x00; x01] in
  let addr := addrUDP (Some (mkUDPAddr ip 53 [])) in
  let a := Addr_4 ip in
  (IsValid a = true ↔
   ∃ ip, GetIPFromAddr addr = Ret ip ∧ (length ip = 4 ∨ length ip = 16)) ∧
  (IsValid a = true → GetIPFromAddr addr = Ret (AsSlice a)) ∧
  (addr = addrOther ∨ addr = addrNil → a = Addr_zero).
Proof.
  intros ip addr a. apply (GetAddrFromAddr_valid addr a). reflexivity.
Defined.

Lemma LoadCertPool_result_witness :
  let certs := [(["a"])%byte; (["e"])%byte; (["a"])%byte] in
  let r := (None, Some (no_certificate_error (["e"])%byte)) in
  let tr := [(["a"])%byte; (["e"])%byte] in
  (∃ p, r = (Some p, None) ∧ tr = certs ∧
        pool_of blocks_append two_files certs [] = Some p) ∨
  (∃ err good bad rest p,
     r = (None, Some err) ∧ certs = good ++ bad :: rest ∧
     tr = good ++ [bad] ∧
     pool_of blocks_append two_files good [] = Some p ∧
     cert_fails blocks_append two_files p bad err).
Proof.
  intros certs r tr.
  apply (LoadCertPool_result [] blocks_append two_files certs r tr).
  vm_compute; reflexivity.
Defined.

Lemma LoadCertPool_first_failure_witness :
  LoadCertPool [] blocks_append two_files
    ([(["a"])%byte] ++ (["x"])%byte :: [(["a"])%byte]) =
  ((None, Some (errNew (["n"; "o"; " "; "f"; "i"; "l"; "e"])%byte)),
   [(["a"])%byte] ++ [(["x"])%byte]).
Proof.
  apply (LoadCertPool_first_failure [] blocks_append two_files
           [(["a"])%byte] (["x"])%byte [(["a"])%byte] [(["A"])%byte]).
  - vm_compute; reflexivity.
  - left. vm_compute; reflexivity.
Defined.
